(** * recycle::resource_pool — a shallow embedding and its properties

    The development follows [src/recycle/resource_pool.hpp].  The pool
    ([resource_pool], a facade over a shared [impl]) hands out
    [std::shared_ptr<Value>] handles whose custom deleter pushes the
    resource back on the pool's free vector and whose custom allocator
    ([SimpleAllocator]) caches the control blocks of the handles.

    Modelling choices:
    - every [impl] lives in a store indexed by an identifier; a
      [std::shared_ptr<impl>], a [std::weak_ptr<impl>] and the references
      kept by [SimpleAllocator] are such identifiers.  A destroyed [impl] is
      absent from the store; dereferencing it is a [Fault];
    - [std::vector] is a list together with its capacity;
    - the user supplied [std::function]s act on a state of their own
      ([World]) and, for the recycle function, on the pointee; they do not
      re-enter the pool;
    - the locking policy is [no_locking_policy]: execution is sequential and
      [lock_type lock(m_mutex)] only dereferences the [impl] owning the mutex;
    - every call that matters to the specification is logged in a trace,
      newest event first. *)

From stdpp Require Import gmap list.
From Stdlib Require Import ZArith Lia.

(** ** std::vector *)

Record vector (A : Type) := Vector { v_items : list A; v_capacity : nat }.
Arguments Vector {A} _ _.
Arguments v_items {A} _.
Arguments v_capacity {A} _.

(** A default constructed vector. *)
Definition v_new {A} : vector A := Vector [] 0.

Definition v_size {A} (v : vector A) : nat := length (v_items v).

Definition v_empty {A} (v : vector A) : bool :=
  match v_items v with [] => true | _ :: _ => false end.

(** [reserve(n)]: nothing when the capacity is already [n] or more; otherwise
    new storage for exactly [n] elements, which is what libstdc++, libc++ and
    the MSVC library allocate (the standard only asks for [n] or more). *)
Definition v_reserve {A} (n : nat) (v : vector A) : vector A :=
  if v_capacity v <? n then Vector (v_items v) n else v.

(** [push_back(x)]: in place while there is room, otherwise the storage
    grows (to [size + max(size, 1)] in libstdc++). *)
Definition v_push_back {A} (x : A) (v : vector A) : vector A :=
  if v_size v <? v_capacity v
  then Vector (v_items v ++ [x]) (v_capacity v)
  else Vector (v_items v ++ [x]) (v_size v + max (v_size v) 1).

(** [back()]: the last element; [None] stands for the undefined behaviour of
    [back()] on an empty vector. *)
Definition v_back {A} (v : vector A) : option A := last (v_items v).

Definition v_pop_back {A} (v : vector A) : vector A :=
  Vector (removelast (v_items v)) (v_capacity v).

(** [clear()] keeps the capacity. *)
Definition v_clear {A} (v : vector A) : vector A := Vector [] (v_capacity v).

(** The class invariant of [std::vector]. *)
Definition v_wf {A} (v : vector A) : Prop := v_size v <= v_capacity v.

(** [uint32_t x = n] for a [std::size_t] n. *)
Definition to_uint32 (n : nat) : Z := (Z.of_nat n mod 2 ^ 32)%Z.

Definition DEFAULT_CAPACITY : nat := 100 * 100.

Section ResourcePool.

(** [Value] is the template parameter; [World] is the state the allocate and
    recycle functions of the user act on. *)
Context {Value World : Type}.

(** ** Data *)

(** [value_ptr = std::shared_ptr<value_type>], never null here: the address
    of the pointee (the identity of the resource) and the pointee. *)
Record value_ptr := ValuePtr { vp_addr : nat; vp_obj : Value }.

(** [void*] of a control block. *)
Abbreviation control_block_ptr := nat (only parsing).

(** [allocate_function = std::function<value_ptr()>]; [None] is a thrown
    exception. *)
Definition allocate_function : Type := World -> option value_ptr * World.

(** [recycle_function = std::function<void(value_ptr)>]: the new state of the
    pointee and of the world. *)
Definition recycle_function : Type := value_ptr -> World -> Value * World.

Inductive event :=
| EvAllocateFn (r : option value_ptr)   (* a call of m_allocate and what it gave *)
| EvRecycleFn (r : value_ptr)           (* a call of m_recycle(r) *)
| EvMalloc (b : control_block_ptr)      (* std::malloc returned b *)
| EvFree (b : control_block_ptr)        (* std::free(b) *)
| EvDestroy (a : nat)                   (* the last owner of the resource at a is gone *)
| EvRecycled (pool : nat) (r : value_ptr)  (* r pushed on the free vector *)
| EvReissued (pool : nat) (r : value_ptr)  (* r popped from the free vector *)
| EvCleared (pool : nat).                  (* the free vector was cleared *)

(** [struct impl]; an empty [m_recycle] is [None].  The mutex carries no
    data under [no_locking_policy]. *)
Record impl := Impl {
  m_allocate : allocate_function;
  m_recycle : option recycle_function;
  m_free_vector : vector value_ptr;
  m_free_vector_control_blocks : vector control_block_ptr
}.

(** [resource_pool]: its only member is [std::shared_ptr<impl> m_pool]. *)
Record resource_pool := ResourcePool { m_pool : nat }.

(** [struct deleter]: a weak pointer to the pool and the shared pointer that
    keeps the resource alive. *)
Record deleter := Deleter { deleter_m_pool : nat; deleter_m_resource : value_ptr }.

(** [SimpleAllocator<T>]: [m_free_vector_control_blocks] and [m_mutex] are
    references to the members of one [impl], [alloc_m_impl]. *)
Record SimpleAllocator := Allocator {
  m_should_take_cached : bool;
  alloc_m_impl : nat
}.

(** A handle: the [value_ptr] returned by [allocate()], together with the
    control block it shares with its copies (where it was allocated, the
    number of owners, the deleter and the allocator copy stored in it). *)
Record handle := Handle {
  h_get : nat;
  h_block : control_block_ptr;
  h_use_count : nat;
  h_deleter : deleter;
  h_alloc : SimpleAllocator
}.

Record state := State {
  pools : gmap nat impl;
  world : World;
  trace : list event;
  next_block : nat;
  next_pool : nat
}.

Definition init (w : World) : state := State ∅ w [] 0 0.

(** ** Computations: state, exceptions and undefined behaviour *)

Inductive fault :=
| UseAfterFree (pool : nat)   (* a member of a destroyed impl was accessed *)
| BackOfEmpty.                (* back() of an empty vector *)

Inductive outcome (A : Type) :=
| Ret (a : A) (s : state)
| Throw (s : state)
| Fault (f : fault).
Arguments Ret {A} _ _.
Arguments Throw {A} _.
Arguments Fault {A} _.

Definition M (A : Type) : Type := state -> outcome A.

Definition ret {A} (a : A) : M A := fun s => Ret a s.

Definition bind {A B} (m : M A) (k : A -> M B) : M B :=
  fun s => match m s with
           | Ret a s' => k a s'
           | Throw s' => Throw s'
           | Fault f => Fault f
           end.

Notation "'do' x <- m ; k" := (bind m (fun x => k))
  (at level 10, x name, m at level 100, k at level 200).
Notation "'exec' m ; k" := (bind m (fun _ => k))
  (at level 10, m at level 100, k at level 200).

Definition emit (e : event) : M unit :=
  fun s => Ret tt (State (pools s) (world s) (e :: trace s) (next_block s) (next_pool s)).

(** Dereference an [impl]. *)
Definition get_impl (p : nat) : M impl :=
  fun s => match pools s !! p with
           | Some i => Ret i s
           | None => Fault (UseAfterFree p)
           end.

Definition set_impl (p : nat) (i : impl) : M unit :=
  fun s => Ret tt (State (<[p := i]> (pools s)) (world s) (trace s) (next_block s) (next_pool s)).

(** [std::weak_ptr<impl>::lock()]. *)
Definition weak_lock (p : nat) : M (option impl) :=
  fun s => Ret (pools s !! p) s.

Definition std_malloc : M control_block_ptr :=
  fun s => let b := next_block s in
           Ret b (State (pools s) (world s) (EvMalloc b :: trace s) (S b) (next_pool s)).

Definition std_free (b : control_block_ptr) : M unit := emit (EvFree b).

Definition call_allocate (f : allocate_function) : M value_ptr :=
  fun s => match f (world s) with
           | (Some r, w) =>
               Ret r (State (pools s) w (EvAllocateFn (Some r) :: trace s) (next_block s) (next_pool s))
           | (None, w) =>
               Throw (State (pools s) w (EvAllocateFn None :: trace s) (next_block s) (next_pool s))
           end.

Definition call_recycle (f : recycle_function) (r : value_ptr) : M value_ptr :=
  fun s => let '(v, w) := f r (world s) in
           Ret (ValuePtr (vp_addr r) v)
               (State (pools s) w (EvRecycleFn r :: trace s) (next_block s) (next_pool s)).

Fixpoint for_each {A} (f : A -> M unit) (l : list A) : M unit :=
  match l with
  | [] => ret tt
  | x :: l' => exec f x ; for_each f l'
  end.

(** ** SimpleAllocator *)

(** [allocate(n)]: called with [n = 1] when a handle is built, for its
    control block. *)
Definition SimpleAllocator_allocate (a : SimpleAllocator) : M control_block_ptr :=
  if m_should_take_cached a then
    do this <- get_impl (alloc_m_impl a) ;
    if negb (v_empty (m_free_vector_control_blocks this)) then
      match v_back (m_free_vector_control_blocks this) with
      | Some result =>
          exec set_impl (alloc_m_impl a)
                 (Impl (m_allocate this) (m_recycle this) (m_free_vector this)
                       (v_pop_back (m_free_vector_control_blocks this))) ;
          ret result
      | None => fun _ => Fault BackOfEmpty
      end
    else std_malloc
  else std_malloc.

(** [deallocate(p, n)]: [lock_type lock(m_mutex)] and the test on the vector
    go through the references to the members of the [impl]. *)
Definition SimpleAllocator_deallocate (a : SimpleAllocator) (p : control_block_ptr) : M unit :=
  do this <- get_impl (alloc_m_impl a) ;
  if v_size (m_free_vector_control_blocks this) <? v_capacity (m_free_vector_control_blocks this)
  then set_impl (alloc_m_impl a)
         (Impl (m_allocate this) (m_recycle this) (m_free_vector this)
               (v_push_back p (m_free_vector_control_blocks this)))
  else std_free p.

(** ** impl *)

(** The constructors [impl(allocate, capacity)] and
    [impl(allocate, recycle, capacity)]. *)
Definition impl_new (allocate : allocate_function) (recycle : option recycle_function)
    (capacity : nat) : impl :=
  Impl allocate recycle (v_reserve capacity v_new) (v_reserve capacity v_new).

(** [value_ptr(resource.get(), deleter(pool, resource),
    SimpleAllocator<void>(take, m_free_vector_control_blocks, m_mutex))]: the
    control block comes from the allocator. *)
Definition make_handle (p : nat) (resource : value_ptr) (take : bool) : M handle :=
  let a := Allocator take p in
  do b <- SimpleAllocator_allocate a ;
  ret (Handle (vp_addr resource) b 1 (Deleter p resource) a).

(** [allocate()]: with a non-empty free vector the resource at its back is
    popped and wrapped, by an allocator that may take a cached control block;
    otherwise the allocation function is called and the new resource is
    wrapped by an allocator that may not. *)
Definition impl_allocate (p : nat) : M handle :=
  do this <- get_impl p ;
  if 0 <? v_size (m_free_vector this) then
    match v_back (m_free_vector this) with
    | Some resource =>
        exec set_impl p (Impl (m_allocate this) (m_recycle this)
                              (v_pop_back (m_free_vector this))
                              (m_free_vector_control_blocks this)) ;
        exec emit (EvReissued p resource) ;
        make_handle p resource true
    | None => fun _ => Fault BackOfEmpty
    end
  else
    do resource <- call_allocate (m_allocate this) ;
    make_handle p resource false.

(** [free_unused()]. *)
Definition impl_free_unused (p : nat) : M unit :=
  do this <- get_impl p ;
  exec for_each (fun r => emit (EvDestroy (vp_addr r))) (v_items (m_free_vector this)) ;
  exec emit (EvCleared p) ;
  exec for_each std_free (v_items (m_free_vector_control_blocks this)) ;
  set_impl p (Impl (m_allocate this) (m_recycle this)
                   (v_clear (m_free_vector this))
                   (v_clear (m_free_vector_control_blocks this))).

(** [unused_resources()]. *)
Definition impl_unused_resources (p : nat) : M nat :=
  do this <- get_impl p ;
  ret (v_size (m_free_vector this)).

(** [recycle(resource)].  The result tells whether the free vector took a
    copy of the pointer (the C++ function returns nothing: the use count of
    the resource carries that information). *)
Definition impl_recycle (p : nat) (resource : value_ptr) : M bool :=
  do this <- get_impl p ;
  do resource' <- match m_recycle this with
                  | Some f => call_recycle f resource
                  | None => ret resource
                  end ;
  if v_size (m_free_vector this) <? v_capacity (m_free_vector this)
  then exec set_impl p (Impl (m_allocate this) (m_recycle this)
                             (v_push_back resource' (m_free_vector this))
                             (m_free_vector_control_blocks this)) ;
       exec emit (EvRecycled p resource') ;
       ret true
  else ret false.

(** [~impl()]. *)
Definition impl_destroy (p : nat) : M unit :=
  do this <- get_impl p ;
  exec for_each (fun r => emit (EvDestroy (vp_addr r))) (v_items (m_free_vector this)) ;
  exec emit (EvCleared p) ;
  exec for_each std_free (v_items (m_free_vector_control_blocks this)) ;
  fun s => Ret tt (State (delete p (pools s)) (world s) (trace s) (next_block s) (next_pool s)).

(** The loop of the copy constructor. *)
Fixpoint copy_loop (f : allocate_function) (n : nat) (v : vector value_ptr)
  : M (vector value_ptr) :=
  match n with
  | 0 => ret v
  | S n' => do r <- call_allocate f ; copy_loop f n' (v_push_back r v)
  end.

(** [impl(const impl& other)]. *)
Definition impl_copy (other : impl) : M impl :=
  let fv := v_reserve (v_capacity (m_free_vector other)) v_new in
  let cb := v_reserve (v_capacity (m_free_vector_control_blocks other)) v_new in
  let size := to_uint32 (v_size (m_free_vector other)) in
  do fv' <- copy_loop (m_allocate other) (Z.to_nat size) fv ;
  ret (Impl (m_allocate other) (m_recycle other) fv' cb).

(** [std::make_shared<impl>(...)]. *)
Definition make_shared_impl (i : impl) : M nat :=
  fun s => let p := next_pool s in
           Ret p (State (<[p := i]> (pools s)) (world s) (trace s) (next_block s) (S p)).

(** ** deleter and the release of a handle *)

(** [deleter::operator()]. *)
Definition deleter_call (d : deleter) : M unit :=
  do pool <- weak_lock (deleter_m_pool d) ;
  do kept <- match pool with
             | Some _ => impl_recycle (deleter_m_pool d) (deleter_m_resource d)
             | None => ret false
             end ;
  (* m_resource.reset() *)
  if (kept : bool) then ret tt else emit (EvDestroy (vp_addr (deleter_m_resource d))).

(** The two halves of the end of a control block: the deleter runs when the
    last owner goes, the block is given back to its allocator when the last
    owner or observer goes. *)
Definition sp_dispose (h : handle) : M unit := deleter_call (h_deleter h).

Definition sp_destroy (h : handle) : M unit :=
  SimpleAllocator_deallocate (h_alloc h) (h_block h).

(** Copying a handle adds an owner. *)
Definition handle_copy (h : handle) : handle :=
  Handle (h_get h) (h_block h) (S (h_use_count h)) (h_deleter h) (h_alloc h).

(** Dropping one owning reference; [None] once the last one is gone (no
    [std::weak_ptr] to the handle is alive). *)
Definition handle_release (h : handle) : M (option handle) :=
  if h_use_count h <=? 1 then
    exec sp_dispose h ; exec sp_destroy h ; ret None
  else
    ret (Some (Handle (h_get h) (h_block h) (h_use_count h - 1) (h_deleter h) (h_alloc h))).

(** ** resource_pool *)

(** The constructors taking an allocation function, an optional recycle
    function and a capacity. *)
Definition resource_pool_new (allocate : allocate_function)
    (recycle : option recycle_function) (capacity : nat) : M resource_pool :=
  do p <- make_shared_impl (impl_new allocate recycle capacity) ;
  ret (ResourcePool p).

(** [resource_pool(const resource_pool& other)]. *)
Definition resource_pool_copy (other : resource_pool) : M resource_pool :=
  do o <- get_impl (m_pool other) ;
  do i <- impl_copy o ;
  do p <- make_shared_impl i ;
  ret (ResourcePool p).

(** [~resource_pool()]: the facade holds the only strong reference. *)
Definition resource_pool_destroy (pool : resource_pool) : M unit :=
  impl_destroy (m_pool pool).

Definition resource_pool_unused_resources (pool : resource_pool) : M nat :=
  impl_unused_resources (m_pool pool).

Definition resource_pool_free_unused (pool : resource_pool) : M unit :=
  impl_free_unused (m_pool pool).

Definition resource_pool_allocate (pool : resource_pool) : M handle :=
  impl_allocate (m_pool pool).

(** ** A client of one pool

    The operations a caller performs on a pool and on the handles it got
    from it.  The caller keeps its outstanding handles in a list; copies of
    one handle share an entry (and a control block). *)

Inductive op :=
| OpAllocate            (* pool.allocate(), the handle is kept *)
| OpCopy (i : nat)      (* one more owner of the i-th outstanding handle *)
| OpDrop (i : nat)      (* one owner less of the i-th outstanding handle *)
| OpFreeUnused.         (* pool.free_unused() *)

(** One operation; an exception of [allocate()] is caught by the caller, an
    operation on a handle that does not exist is skipped, [None] is
    undefined behaviour. *)
Definition step (pool : resource_pool) (o : op) (c : state * list handle)
  : option (state * list handle) :=
  let '(s, hs) := c in
  match o with
  | OpAllocate =>
      match resource_pool_allocate pool s with
      | Ret h s' => Some (s', hs ++ [h])
      | Throw s' => Some (s', hs)
      | Fault _ => None
      end
  | OpCopy i =>
      match hs !! i with
      | Some h => Some (s, <[i := handle_copy h]> hs)
      | None => Some (s, hs)
      end
  | OpDrop i =>
      match hs !! i with
      | Some h =>
          match handle_release h s with
          | Ret (Some h') s' => Some (s', <[i := h']> hs)
          | Ret None s' => Some (s', delete i hs)
          | Throw s' => Some (s', hs)
          | Fault _ => None
          end
      | None => Some (s, hs)
      end
  | OpFreeUnused =>
      match resource_pool_free_unused pool s with
      | Ret _ s' => Some (s', hs)
      | Throw s' => Some (s', hs)
      | Fault _ => None
      end
  end.

Fixpoint run_ops (pool : resource_pool) (ops : list op) (c : state * list handle)
  : option (state * list handle) :=
  match ops with
  | [] => Some c
  | o :: ops' =>
      match step pool o c with
      | Some c' => run_ops pool ops' c'
      | None => None
      end
  end.

(** [n] calls of [allocate()], keeping the handles. *)
Fixpoint allocate_n (pool : resource_pool) (n : nat) : M (list handle) :=
  match n with
  | 0 => ret []
  | S n' =>
      do h <- resource_pool_allocate pool ;
      do hs <- allocate_n pool n' ;
      ret (h :: hs)
  end.

(** Dropping handles one after the other. *)
Fixpoint release_all (hs : list handle) : M unit :=
  match hs with
  | [] => ret tt
  | h :: hs' => exec handle_release h ; release_all hs'
  end.

(** ** Reading the trace *)

Definition is_allocate_call (e : event) : bool :=
  match e with EvAllocateFn _ => true | _ => false end.

Definition is_recycle_call (e : event) : bool :=
  match e with EvRecycleFn _ => true | _ => false end.

Definition is_malloc (e : event) : bool :=
  match e with EvMalloc _ => true | _ => false end.

Definition count_events (f : event -> bool) (tr : list event) : nat :=
  length (List.filter f tr).

Fixpoint remove_one (a : nat) (l : list nat) : list nat :=
  match l with
  | [] => []
  | b :: l' => if a =? b then l' else b :: remove_one a l'
  end.

(** Following the words of the specification: the most recently recycled and
    not yet re-issued resource of pool [p].  The history is read from the
    newest event back; [reissued] holds the addresses whose re-issue has been
    passed and whose recycling is still to come.  A recycled resource whose
    address is not awaited there has not been re-issued since: it is the
    answer.  Clearing the free vector destroys every idle resource. *)
Fixpoint most_recently_recycled (p : nat) (reissued : list nat) (tr : list event)
  : option value_ptr :=
  match tr with
  | [] => None
  | EvRecycled q r :: tr' =>
      if q =? p then
        if existsb (Nat.eqb (vp_addr r)) reissued
        then most_recently_recycled p (remove_one (vp_addr r) reissued) tr'
        else Some r
      else most_recently_recycled p reissued tr'
  | EvReissued q r :: tr' =>
      if q =? p then most_recently_recycled p (vp_addr r :: reissued) tr'
      else most_recently_recycled p reissued tr'
  | EvCleared q :: tr' =>
      if q =? p then None else most_recently_recycled p reissued tr'
  | _ :: tr' => most_recently_recycled p reissued tr'
  end.

(** What the recycle function, when there is one, does to the resource and
    to the world, and what it leaves in the trace. *)
Definition recycled (rc : option recycle_function) (r : value_ptr) (w : World)
  : value_ptr * World :=
  match rc with
  | Some f => (ValuePtr (vp_addr r) (f r w).1, (f r w).2)
  | None => (r, w)
  end.

Definition recycle_events (rc : option recycle_function) (r : value_ptr) : list event :=
  match rc with Some _ => [EvRecycleFn r] | None => [] end.

(** ** Invariants of a pool and of its history *)

(** Pool [p] is alive with the functions it was built with, and both of its
    vectors still have the capacity [c] reserved by the constructor and no
    more elements than that. *)
Definition pool_ok (al : allocate_function) (rc : option recycle_function)
    (c p : nat) (s : state) : Prop :=
  exists this,
    pools s !! p = Some this /\
    m_allocate this = al /\ m_recycle this = rc /\
    v_capacity (m_free_vector this) = c /\
    v_capacity (m_free_vector_control_blocks this) = c /\
    v_size (m_free_vector this) <= c /\
    v_size (m_free_vector_control_blocks this) <= c.

(** The deleter and the allocator of a handle issued by pool [p]. *)
Definition handle_of (p : nat) (h : handle) : Prop :=
  deleter_m_pool (h_deleter h) = p /\ alloc_m_impl (h_alloc h) = p.

(** [most_recently_recycled] read on a stack, top first. *)
Fixpoint stack_scan (reissued : list nat) (st : list value_ptr) : option value_ptr :=
  match st with
  | [] => None
  | r :: st' =>
      if existsb (Nat.eqb (vp_addr r)) reissued
      then stack_scan (remove_one (vp_addr r) reissued) st'
      else Some r
  end.

(** The free vector of [p], read from its back, is the stack of the
    resources recycled and not re-issued that the history describes. *)
Definition lifo_ok (p : nat) (s : state) : Prop :=
  exists this,
    pools s !! p = Some this /\
    forall reissued,
      most_recently_recycled p reissued (trace s) =
      stack_scan reissued (rev (v_items (m_free_vector this))).

(** Events that say nothing about the content of a free vector. *)
Definition silent (e : event) : bool :=
  match e with
  | EvRecycled _ _ | EvReissued _ _ | EvCleared _ => false
  | _ => true
  end.

(** Does operation [o] drop the last owner of a handle? *)
Definition drops_last (o : op) (c : state * list handle) : bool :=
  match o with
  | OpDrop i =>
      match c.2 !! i with
      | Some h => h_use_count h <=? 1
      | None => false
      end
  | _ => false
  end.

(** The number of handles fully released along a run. *)
Fixpoint released_count (pool : resource_pool) (ops : list op) (c : state * list handle)
  : nat :=
  match ops with
  | [] => 0
  | o :: ops' =>
      (if drops_last o c then 1 else 0) +
      match step pool o c with
      | Some c' => released_count pool ops' c'
      | None => 0
      end
  end.

(** What holds of a client of pool [p] between two operations. *)
Definition client_ok (al : allocate_function) (rc : option recycle_function)
    (c p : nat) (cl : state * list handle) : Prop :=
  pool_ok al rc c p cl.1 /\ lifo_ok p cl.1 /\ Forall (handle_of p) cl.2.

(** ** Assignment of pools *)

(** [operator=(const resource_pool& other)]: [resource_pool tmp(other)]
    copies the pool of [other]; [std::swap] of [*this] and [tmp] moves the shared
    pointers around, so that [*this] holds the copy and [tmp] the [impl] that
    [*this] held; [tmp] is destroyed on return, and that [impl] with it.  The
    result is the facade [*this] after the assignment. *)
Definition resource_pool_copy_assign (this other : resource_pool) : M resource_pool :=
  do tmp <- resource_pool_copy other ;
  exec resource_pool_destroy this ;
  ret tmp.

(** [operator=(resource_pool&& other)]: [m_pool = std::move(other.m_pool)]
    releases the [impl] that [*this] held and takes the one of [other], which
    is left empty.  Two facades hold the same [impl] only when they are the
    same object, and a shared pointer moved into itself is unchanged. *)
Definition resource_pool_move_assign (this other : resource_pool) : M resource_pool :=
  if m_pool this =? m_pool other then ret other
  else exec resource_pool_destroy this ; ret other.

(** ** Accounting

    What the trace says was obtained and given back: control blocks from
    [std::malloc] and to [std::free], resources (by address) from the
    allocation function and to their destruction. *)

Definition malloced (tr : list event) : list nat :=
  omap (fun e => match e with EvMalloc b => Some b | _ => None end) tr.

Definition freed (tr : list event) : list nat :=
  omap (fun e => match e with EvFree b => Some b | _ => None end) tr.

Definition allocated (tr : list event) : list nat :=
  omap (fun e => match e with EvAllocateFn (Some r) => Some (vp_addr r) | _ => None end) tr.

Definition destroyed (tr : list event) : list nat :=
  omap (fun e => match e with EvDestroy a => Some a | _ => None end) tr.

(** Every control block obtained from malloc is freed, cached or in use by
    an outstanding handle; every resource obtained from the allocation
    function is idle in the free vector, held by an outstanding handle or
    destroyed.  malloc never gave the same block twice, the cache holds as
    many blocks as the free vector holds resources, and a handle points to
    the resource its deleter keeps. *)
Definition accounted (p : nat) (cl : state * list handle) : Prop :=
  exists this,
    pools cl.1 !! p = Some this /\
    malloced (trace cl.1) ≡ₚ
      freed (trace cl.1) ++ v_items (m_free_vector_control_blocks this) ++ (h_block <$> cl.2) /\
    allocated (trace cl.1) ≡ₚ
      (vp_addr <$> v_items (m_free_vector this)) ++ (h_get <$> cl.2) ++ destroyed (trace cl.1) /\
    NoDup (malloced (trace cl.1)) /\
    Forall (fun b => b < next_block cl.1) (malloced (trace cl.1)) /\
    v_size (m_free_vector_control_blocks this) = v_size (m_free_vector this) /\
    Forall (fun h => h_get h = vp_addr (deleter_m_resource (h_deleter h))) cl.2.

End ResourcePool.

Arguments Ret {Value World A} a s.
Arguments Throw {Value World A} s.
Arguments Fault {Value World A} f.

Notation "'do' x <- m ; k" := (bind m (fun x => k))
  (at level 10, x name, m at level 100, k at level 200).
Notation "'exec' m ; k" := (bind m (fun _ => k))
  (at level 10, m at level 100, k at level 200).

(** ** Concrete pools used in the examples

    Resources are numbers.  The world of the user functions is a pair: the
    last address handed out by the allocation function and a counter kept by
    the recycle function. *)

Definition counter_allocate : @allocate_function nat (nat * nat) :=
  fun w => (Some (ValuePtr (S w.1) (S w.1)), (S w.1, w.2)).

Definition counter_recycle : @recycle_function nat (nat * nat) :=
  fun r w => (vp_obj r, (w.1, S w.2)).

(** An allocation function that throws on its first call only. *)
Definition flaky_allocate : @allocate_function nat (nat * nat) :=
  fun w => if w.1 =? 0 then (None, (1, w.2)) else counter_allocate w.

Definition example_pool : resource_pool := ResourcePool 0.

(** The state right after [resource_pool(allocate, recycle, capacity)]. *)
Definition example_start (al : @allocate_function nat (nat * nat))
    (rc : option (@recycle_function nat (nat * nat))) (c : nat)
  : @state nat (nat * nat) :=
  State (<[0 := impl_new al rc c]> ∅) (0, 0) [] 0 1.

(** A handle that outlives its pool: the pool is destroyed between
    [allocate()] and the drop of the handle. *)
Definition outliving_handle : M (resource_pool * @handle nat) :=
  do pool <- resource_pool_new counter_allocate (Some counter_recycle) 2 ;
  do h <- resource_pool_allocate pool ;
  exec resource_pool_destroy pool ;
  ret (pool, h).

(** The control block of a first handle outlives its last owner (a
    [std::weak_ptr] made from the handle is still alive): the deleter runs,
    a second handle re-issues the resource, and only then is the first block
    given back to the allocator. *)
Definition late_block_release : M resource_pool :=
  do pool <- resource_pool_new counter_allocate None 2 ;
  do h1 <- resource_pool_allocate pool ;
  exec sp_dispose h1 ;
  do h2 <- resource_pool_allocate pool ;
  exec sp_destroy h1 ;
  ret pool.

(** Three handles, the first one copied once, then every owner dropped:
    the handles of resources 2 and 3 first, the two owners of resource 1
    last. *)
Definition three_then_drop : list op :=
  [OpAllocate; OpAllocate; OpAllocate; OpCopy 0; OpDrop 1; OpDrop 1; OpDrop 0; OpDrop 0].

(** Two pools of capacity 2: [a] has issued a handle that is still held,
    [b] holds one idle resource. *)
Definition two_pools : M (resource_pool * resource_pool * @handle nat) :=
  do a <- resource_pool_new counter_allocate None 2 ;
  do b <- resource_pool_new counter_allocate None 2 ;
  do h <- resource_pool_allocate a ;
  do g <- resource_pool_allocate b ;
  exec handle_release g ;
  ret (a, b, h).

(** [2^32], one more than the largest [uint32_t]. *)
Definition uint32_range : nat := Z.to_nat (2 ^ 32).

(** * Properties *)

Section Properties.

Context {Value World : Type}.

Implicit Types (s : @state Value World) (this : @impl Value World).
Implicit Types (h : @handle Value) (r : @value_ptr Value).
Implicit Types (al : @allocate_function Value World).
Implicit Types (rc : option (@recycle_function Value World)).

Lemma Ret_value {A : Type} (a b : A) s s' : Ret a s = Ret b s' -> a = b.
Proof. by intros [= -> _]. Qed.

(** ** std::vector *)

Lemma v_back_snoc {A} (l : list A) (x : A) (c : nat) :
  v_back (Vector (l ++ [x]) c) = Some x.
Proof. unfold v_back; simpl. apply last_snoc. Qed.

Lemma v_pop_back_snoc {A} (l : list A) (x : A) (c : nat) :
  v_pop_back (Vector (l ++ [x]) c) = Vector l c.
Proof. unfold v_pop_back; simpl. by rewrite removelast_last. Qed.

Lemma v_size_snoc {A} (l : list A) (x : A) (c : nat) :
  v_size (Vector (l ++ [x]) c) = S (length l).
Proof. unfold v_size; simpl. rewrite length_app; simpl; lia. Qed.

Lemma v_push_back_room {A} (x : A) (v : vector A) :
  v_size v < v_capacity v ->
  v_push_back x v = Vector (v_items v ++ [x]) (v_capacity v).
Proof.
  intros Hlt. unfold v_push_back.
  destruct (Nat.ltb_spec (v_size v) (v_capacity v)); [done | lia].
Qed.

Lemma v_reserve_new {A} (n : nat) : v_reserve n (@v_new A) = Vector [] n.
Proof.
  unfold v_reserve, v_new; simpl. destruct n; reflexivity.
Qed.

Lemma list_snoc_cases {A} (l : list A) : l = [] \/ exists l' x, l = l' ++ [x].
Proof.
  induction l as [|x l _] using rev_ind; [by left | right; eauto].
Qed.

(** ** The operations on a live pool, one equation per path *)

Lemma for_each_emit {A} (f : A -> @event Value) (l : list A) s :
  for_each (fun x => emit (f x)) l s =
  Ret tt (State (pools s) (world s) (rev (map f l) ++ trace s) (next_block s) (next_pool s)).
Proof.
  revert s. induction l as [|x l IH]; intros s.
  - by destruct s.
  - simpl. unfold bind, emit at 1. rewrite IH. simpl.
    by rewrite <- app_assoc.
Qed.

Lemma for_each_free (l : list nat) s :
  for_each std_free l s =
  Ret tt (State (pools s) (world s) (rev (map EvFree l) ++ trace s) (next_block s) (next_pool s)).
Proof. apply (for_each_emit EvFree). Qed.

Lemma deallocate_live (a : SimpleAllocator) (b : nat) s this :
  pools s !! alloc_m_impl a = Some this ->
  SimpleAllocator_deallocate a b s =
  if v_size (m_free_vector_control_blocks this) <? v_capacity (m_free_vector_control_blocks this)
  then Ret tt (State (<[alloc_m_impl a :=
                         Impl (m_allocate this) (m_recycle this) (m_free_vector this)
                              (v_push_back b (m_free_vector_control_blocks this))]> (pools s))
                     (world s) (trace s) (next_block s) (next_pool s))
  else Ret tt (State (pools s) (world s) (EvFree b :: trace s) (next_block s) (next_pool s)).
Proof.
  intros Hp. unfold SimpleAllocator_deallocate, bind, get_impl. rewrite Hp.
  by destruct (_ <? _).
Qed.

Lemma deallocate_dead (a : SimpleAllocator) (b : nat) s :
  pools s !! alloc_m_impl a = None ->
  SimpleAllocator_deallocate a b s = Fault (UseAfterFree (alloc_m_impl a)).
Proof.
  intros Hp. unfold SimpleAllocator_deallocate, bind, get_impl. by rewrite Hp.
Qed.

Lemma recycled_addr rc r w : vp_addr (recycled rc r w).1 = vp_addr r.
Proof. by destruct rc. Qed.

Lemma recycle_live (p : nat) r s this :
  pools s !! p = Some this ->
  impl_recycle p r s =
  let r' := (recycled (m_recycle this) r (world s)).1 in
  let w' := (recycled (m_recycle this) r (world s)).2 in
  let tr := recycle_events (m_recycle this) r ++ trace s in
  if v_size (m_free_vector this) <? v_capacity (m_free_vector this)
  then Ret true (State (<[p := Impl (m_allocate this) (m_recycle this)
                                    (v_push_back r' (m_free_vector this))
                                    (m_free_vector_control_blocks this)]> (pools s))
                       w' (EvRecycled p r' :: tr) (next_block s) (next_pool s))
  else Ret false (State (pools s) w' tr (next_block s) (next_pool s)).
Proof.
  intros Hp. unfold impl_recycle, bind, get_impl. rewrite Hp.
  destruct (m_recycle this) as [f|]; simpl.
  - unfold call_recycle. destruct (f r (world s)) as [v w]; simpl.
    by destruct (_ <? _).
  - destruct s; simpl. by destruct (_ <? _).
Qed.

Lemma deleter_live (d : @deleter Value) s this :
  pools s !! deleter_m_pool d = Some this ->
  deleter_call d s =
  let p := deleter_m_pool d in
  let r := deleter_m_resource d in
  let r' := (recycled (m_recycle this) r (world s)).1 in
  let w' := (recycled (m_recycle this) r (world s)).2 in
  let tr := recycle_events (m_recycle this) r ++ trace s in
  if v_size (m_free_vector this) <? v_capacity (m_free_vector this)
  then Ret tt (State (<[p := Impl (m_allocate this) (m_recycle this)
                                  (v_push_back r' (m_free_vector this))
                                  (m_free_vector_control_blocks this)]> (pools s))
                     w' (EvRecycled p r' :: tr) (next_block s) (next_pool s))
  else Ret tt (State (pools s) w' (EvDestroy (vp_addr r) :: tr) (next_block s) (next_pool s)).
Proof.
  intros Hp. unfold deleter_call, bind, weak_lock. rewrite Hp.
  rewrite (recycle_live _ _ _ _ Hp). simpl.
  by destruct (_ <? _).
Qed.

Lemma deleter_dead (d : @deleter Value) s :
  pools s !! deleter_m_pool d = None ->
  deleter_call d s =
  Ret tt (State (pools s) (world s) (EvDestroy (vp_addr (deleter_m_resource d)) :: trace s)
                (next_block s) (next_pool s)).
Proof.
  intros Hp. unfold deleter_call, bind, weak_lock. by rewrite Hp.
Qed.

Lemma allocate_hit_cached (p : nat) s this items r cbs b :
  pools s !! p = Some this ->
  v_items (m_free_vector this) = items ++ [r] ->
  v_items (m_free_vector_control_blocks this) = cbs ++ [b] ->
  impl_allocate p s =
  Ret (Handle (vp_addr r) b 1 (Deleter p r) (Allocator true p))
      (State (<[p := Impl (m_allocate this) (m_recycle this)
                          (Vector items (v_capacity (m_free_vector this)))
                          (Vector cbs (v_capacity (m_free_vector_control_blocks this)))]>
                (pools s))
             (world s) (EvReissued p r :: trace s) (next_block s) (next_pool s)).
Proof.
  intros Hp Hf Hc. destruct this as [al rc [fi fc] [ci cc]]; simpl in *; subst.
  unfold impl_allocate, bind, get_impl. rewrite Hp. simpl.
  rewrite v_size_snoc, v_back_snoc, v_pop_back_snoc. simpl.
  unfold make_handle, SimpleAllocator_allocate, bind, get_impl; simpl.
  rewrite lookup_insert_eq. simpl.
  unfold v_empty; simpl. destruct (cbs ++ [b]) eqn:E; [by destruct cbs|]. rewrite <- E.
  simpl. rewrite v_back_snoc, v_pop_back_snoc. simpl.
  unfold set_impl, ret; simpl. by rewrite insert_insert_eq.
Qed.

Lemma allocate_hit_malloc (p : nat) s this items r :
  pools s !! p = Some this ->
  v_items (m_free_vector this) = items ++ [r] ->
  v_items (m_free_vector_control_blocks this) = [] ->
  impl_allocate p s =
  Ret (Handle (vp_addr r) (next_block s) 1 (Deleter p r) (Allocator true p))
      (State (<[p := Impl (m_allocate this) (m_recycle this)
                          (Vector items (v_capacity (m_free_vector this)))
                          (m_free_vector_control_blocks this)]> (pools s))
             (world s) (EvMalloc (next_block s) :: EvReissued p r :: trace s)
             (S (next_block s)) (next_pool s)).
Proof.
  intros Hp Hf Hc. destruct this as [al rc [fi fc] [ci cc]]; simpl in *; subst.
  unfold impl_allocate, bind, get_impl. rewrite Hp. simpl.
  rewrite v_size_snoc, v_back_snoc, v_pop_back_snoc. simpl.
  unfold make_handle, SimpleAllocator_allocate, bind, get_impl; simpl.
  by rewrite lookup_insert_eq.
Qed.

Lemma allocate_miss (p : nat) s this r w :
  pools s !! p = Some this ->
  v_items (m_free_vector this) = [] ->
  m_allocate this (world s) = (Some r, w) ->
  impl_allocate p s =
  Ret (Handle (vp_addr r) (next_block s) 1 (Deleter p r) (Allocator false p))
      (State (pools s) w (EvMalloc (next_block s) :: EvAllocateFn (Some r) :: trace s)
             (S (next_block s)) (next_pool s)).
Proof.
  intros Hp Hf Ha. unfold impl_allocate, bind, get_impl. rewrite Hp.
  unfold v_size. rewrite Hf. simpl. unfold call_allocate. by rewrite Ha.
Qed.

Lemma allocate_throw (p : nat) s this w :
  pools s !! p = Some this ->
  v_items (m_free_vector this) = [] ->
  m_allocate this (world s) = (None, w) ->
  impl_allocate p s =
  Throw (State (pools s) w (EvAllocateFn None :: trace s) (next_block s) (next_pool s)).
Proof.
  intros Hp Hf Ha. unfold impl_allocate, bind, get_impl. rewrite Hp.
  unfold v_size. rewrite Hf. simpl. unfold call_allocate. by rewrite Ha.
Qed.

Lemma free_unused_live (p : nat) s this :
  pools s !! p = Some this ->
  impl_free_unused p s =
  Ret tt (State (<[p := Impl (m_allocate this) (m_recycle this)
                             (v_clear (m_free_vector this))
                             (v_clear (m_free_vector_control_blocks this))]> (pools s))
                (world s)
                (rev (map EvFree (v_items (m_free_vector_control_blocks this)))
                   ++ EvCleared p
                   :: rev (map (fun r => EvDestroy (vp_addr r)) (v_items (m_free_vector this)))
                   ++ trace s)
                (next_block s) (next_pool s)).
Proof.
  intros Hp. unfold impl_free_unused, bind, get_impl. rewrite Hp.
  rewrite (for_each_emit (fun r => EvDestroy (vp_addr r))). simpl.
  by rewrite for_each_free.
Qed.

Lemma unused_resources_live (p : nat) s this :
  pools s !! p = Some this ->
  impl_unused_resources p s = Ret (v_size (m_free_vector this)) s.
Proof.
  intros Hp. unfold impl_unused_resources, bind, get_impl. by rewrite Hp.
Qed.

Lemma release_live (p : nat) h s this :
  handle_of p h ->
  pools s !! p = Some this ->
  handle_release h s =
  if h_use_count h <=? 1 then
    let r := deleter_m_resource (h_deleter h) in
    let r' := (recycled (m_recycle this) r (world s)).1 in
    let w' := (recycled (m_recycle this) r (world s)).2 in
    let fv := m_free_vector this in
    let cb := m_free_vector_control_blocks this in
    let room := v_size fv <? v_capacity fv in
    let croom := v_size cb <? v_capacity cb in
    Ret None
      (State (<[p := Impl (m_allocate this) (m_recycle this)
                          (if room then v_push_back r' fv else fv)
                          (if croom then v_push_back (h_block h) cb else cb)]> (pools s))
             w'
             ((if croom then [] else [EvFree (h_block h)])
                ++ (if room then EvRecycled p r' else EvDestroy (vp_addr r))
                :: recycle_events (m_recycle this) r ++ trace s)
             (next_block s) (next_pool s))
  else
    Ret (Some (Handle (h_get h) (h_block h) (h_use_count h - 1) (h_deleter h) (h_alloc h))) s.
Proof.
  intros [Hd Ha] Hp. unfold handle_release.
  destruct (h_use_count h <=? 1); [|done].
  unfold bind, sp_dispose, sp_destroy. subst p.
  rewrite (deleter_live _ _ _ Hp). simpl.
  destruct this as [al rc fv cb]; simpl in *.
  destruct (v_size fv <? v_capacity fv) eqn:Hroom; simpl.
  - erewrite deallocate_live by (simpl; rewrite Ha; apply lookup_insert_eq).
    simpl. rewrite Ha.
    destruct (v_size cb <? v_capacity cb); simpl; [|done].
    by rewrite insert_insert_eq.
  - erewrite deallocate_live by (simpl; rewrite Ha; apply Hp).
    simpl. rewrite Ha.
    destruct (v_size cb <? v_capacity cb); simpl; [done|].
    by rewrite (insert_id _ _ _ Hp).
Qed.

Lemma pool_new al rc (c : nat) s :
  resource_pool_new al rc c s =
  Ret (ResourcePool (next_pool s))
      (State (<[next_pool s := impl_new al rc c]> (pools s)) (world s) (trace s)
             (next_block s) (S (next_pool s))).
Proof. reflexivity. Qed.

(** ** Case analysis on the paths of [allocate()] *)

Ltac allocate_paths Hp :=
  match type of Hp with
  | pools ?s !! ?p = Some ?this =>
      let Hf := fresh "Hf" in
      let Hc := fresh "Hc" in
      let Hal := fresh "Hal" in
      let items := fresh "items" in
      let r := fresh "r" in
      let cbs := fresh "cbs" in
      let b := fresh "b" in
      let w := fresh "w" in
      destruct (list_snoc_cases (v_items (m_free_vector this))) as [Hf | (items & r & Hf)];
      [ destruct (m_allocate this (world s)) as [[r|] w] eqn:Hal;
        [ rewrite (allocate_miss _ _ _ _ _ Hp Hf Hal)
        | rewrite (allocate_throw _ _ _ _ Hp Hf Hal) ]
      | destruct (list_snoc_cases (v_items (m_free_vector_control_blocks this)))
          as [Hc | (cbs & b & Hc)];
        [ rewrite (allocate_hit_malloc _ _ _ _ _ Hp Hf Hc)
        | rewrite (allocate_hit_cached _ _ _ _ _ _ _ Hp Hf Hc) ] ]
  end.

(** ** [pool_ok] is kept by every operation *)

Lemma v_push_back_if_ok {A} (x : A) (v : vector A) (c : nat) :
  v_capacity v = c -> v_size v <= c ->
  let v' := if v_size v <? v_capacity v then v_push_back x v else v in
  v_capacity v' = c /\ v_size v' <= c.
Proof.
  intros Hc Hs. simpl.
  destruct (Nat.ltb_spec (v_size v) (v_capacity v)) as [Hlt|Hge]; [|done].
  rewrite (v_push_back_room _ _ Hlt). unfold v_size in *; simpl.
  rewrite length_app; simpl. lia.
Qed.

Lemma allocate_ok al rc (c p : nat) s :
  pool_ok al rc c p s ->
  (exists h s', impl_allocate p s = Ret h s' /\ pool_ok al rc c p s' /\
                handle_of p h /\ h_use_count h = 1)
  \/ (exists s', impl_allocate p s = Throw s' /\ pool_ok al rc c p s').
Proof.
  intros (this & Hp & Hal & Hrc & Hfc & Hcc & Hfs & Hcs).
  destruct this as [al' rc' [fi fc] [ci cc]]; unfold v_size in *; simpl in *; subst.
  allocate_paths Hp; simpl in *; subst.
  - left. eexists _, _. split; [done|]. split; [|done].
    eexists. split; [apply Hp|]. simpl. done.
  - right. eexists. split; [done|].
    eexists. split; [apply Hp|]. simpl. done.
  - left. eexists _, _. split; [done|]. split; [|done].
    eexists. split; [apply lookup_insert_eq|]. unfold v_size; simpl.
    rewrite length_app in Hfs; simpl in *. repeat split; try done; lia.
  - left. eexists _, _. split; [done|]. split; [|done].
    eexists. split; [apply lookup_insert_eq|]. unfold v_size; simpl.
    rewrite length_app in Hfs, Hcs; simpl in *. repeat split; try done; lia.
Qed.

Lemma release_ok al rc (c p : nat) h s :
  pool_ok al rc c p s -> handle_of p h ->
  exists o s', handle_release h s = Ret o s' /\ pool_ok al rc c p s' /\
               (forall h', o = Some h' -> handle_of p h') /\
               (o = None <-> h_use_count h <= 1).
Proof.
  intros (this & Hp & Hal & Hrc & Hfc & Hcc & Hfs & Hcs) Hh.
  rewrite (release_live _ _ _ _ Hh Hp).
  destruct (Nat.leb_spec (h_use_count h) 1) as [Hle|Hgt].
  - eexists _, _. split; [done|]. split; [|split; [done|by split]].
    eexists. split; [apply lookup_insert_eq|]. simpl.
    pose proof (v_push_back_if_ok
                  (recycled (m_recycle this) (deleter_m_resource (h_deleter h)) (world s)).1
                  _ _ Hfc Hfs) as [? ?].
    pose proof (v_push_back_if_ok (h_block h) _ _ Hcc Hcs) as [? ?].
    done.
  - eexists _, _. split; [done|]. split; [by exists this|]. split.
    + intros h' [= <-]. exact Hh.
    + split; [done | lia].
Qed.

Lemma free_unused_ok al rc (c p : nat) s :
  pool_ok al rc c p s ->
  exists s', impl_free_unused p s = Ret tt s' /\ pool_ok al rc c p s'.
Proof.
  intros (this & Hp & Hal & Hrc & Hfc & Hcc & Hfs & Hcs).
  rewrite (free_unused_live _ _ _ Hp). eexists. split; [done|].
  eexists. split; [apply lookup_insert_eq|]. unfold v_size; simpl.
  repeat split; try done; lia.
Qed.

Lemma pool_new_ok al rc (c : nat) (w : World) :
  pool_ok al rc c 0 (State (<[0 := impl_new al rc c]> ∅) w [] 0 1).
Proof.
  eexists. split; [apply lookup_insert_eq|]. unfold impl_new.
  rewrite !v_reserve_new. unfold v_size; simpl. repeat split; try done; lia.
Qed.

(** ** The free vector is the stack read off the history *)

Lemma mrr_silent (p : nat) (reissued : list nat) (evs tr : list (@event Value)) :
  forallb silent evs = true ->
  most_recently_recycled p reissued (evs ++ tr) = most_recently_recycled p reissued tr.
Proof.
  induction evs as [|e evs IH]; simpl; [done|].
  intros [He Hevs]%andb_prop. destruct e; simpl in *; try done; by apply IH.
Qed.

Lemma silent_recycle_events rc r : forallb silent (recycle_events rc r) = true.
Proof. by destruct rc. Qed.

Lemma silent_frees (l : list nat) : forallb silent (rev (map (@EvFree Value) l)) = true.
Proof.
  apply forallb_forall. intros e He. apply in_rev, in_map_iff in He.
  by destruct He as (b & <- & _).
Qed.

Lemma silent_destroys (l : list (@value_ptr Value)) :
  forallb silent (rev (map (fun r => @EvDestroy Value (vp_addr r)) l)) = true.
Proof.
  apply forallb_forall. intros e He. apply in_rev, in_map_iff in He.
  by destruct He as (b & <- & _).
Qed.

Lemma remove_one_head (a : nat) (l : list nat) : remove_one a (a :: l) = l.
Proof. simpl. by rewrite Nat.eqb_refl. Qed.

Lemma lifo_top (p : nat) s this items r :
  lifo_ok p s -> pools s !! p = Some this ->
  v_items (m_free_vector this) = items ++ [r] ->
  most_recently_recycled p [] (trace s) = Some r.
Proof.
  intros (this' & Hp' & Hl) Hp Hf. rewrite Hp in Hp'. injection Hp' as <-.
  rewrite Hl, Hf, rev_unit. reflexivity.
Qed.

Lemma lifo_allocate (p : nat) s :
  lifo_ok p s ->
  match impl_allocate p s with
  | Ret _ s' | Throw s' => lifo_ok p s'
  | Fault _ => False
  end.
Proof.
  intros (this & Hp & Hl).
  allocate_paths Hp.
  - exists this. split; [done|]. intros P. simpl. apply Hl.
  - exists this. split; [done|]. intros P. simpl. apply Hl.
  - eexists. split; [apply lookup_insert_eq|]. intros P. simpl.
    rewrite Nat.eqb_refl, Hl, Hf, rev_unit. simpl.
    by rewrite !Nat.eqb_refl.
  - eexists. split; [apply lookup_insert_eq|]. intros P. simpl.
    rewrite Nat.eqb_refl, Hl, Hf, rev_unit. simpl.
    by rewrite !Nat.eqb_refl.
Qed.

Lemma lifo_release (p : nat) h s o s' :
  lifo_ok p s -> handle_of p h ->
  handle_release h s = Ret o s' ->
  lifo_ok p s'.
Proof.
  intros (this & Hp & Hl) Hh. rewrite (release_live _ _ _ _ Hh Hp).
  destruct (h_use_count h <=? 1).
  - intros [= _ <-]. eexists. split; [apply lookup_insert_eq|]. intros P. simpl.
    rewrite mrr_silent by (by destruct (_ <? _)).
    destruct (Nat.ltb_spec (v_size (m_free_vector this)) (v_capacity (m_free_vector this)))
      as [Hlt|Hge]; simpl.
    + rewrite Nat.eqb_refl, (v_push_back_room _ _ Hlt). simpl. rewrite rev_unit. simpl.
      rewrite mrr_silent by apply silent_recycle_events.
      by rewrite !Hl.
    + rewrite mrr_silent by apply silent_recycle_events. apply Hl.
  - intros [= _ <-]. by exists this.
Qed.

Lemma lifo_free_unused (p : nat) s s' :
  lifo_ok p s -> impl_free_unused p s = Ret tt s' -> lifo_ok p s'.
Proof.
  intros (this & Hp & Hl). rewrite (free_unused_live _ _ _ Hp).
  intros [= <-]. eexists. split; [apply lookup_insert_eq|]. intros P. simpl.
  rewrite mrr_silent by apply silent_frees. simpl. by rewrite Nat.eqb_refl.
Qed.

(** ** Runs of a client *)

Lemma step_ok al rc (c : nat) pool (o : op) (cl : @state Value World * list handle) :
  client_ok al rc c (m_pool pool) cl ->
  exists cl', step pool o cl = Some cl' /\ client_ok al rc c (m_pool pool) cl'.
Proof.
  destruct cl as [s hs]. intros (Hok & Hl & Hhs). simpl in *.
  destruct o as [|i|i|]; simpl.
  - unfold resource_pool_allocate.
    pose proof (lifo_allocate _ _ Hl) as Hl'.
    destruct (allocate_ok _ _ _ _ _ Hok) as [(h & s' & Hr & Hok' & Hh & _)|(s' & Hr & Hok')];
      rewrite Hr in Hl' |- *.
    + eexists. split; [done|]. repeat split; simpl; try done.
      apply Forall_app. split; [done|]. by constructor.
    + eexists. split; [done|]. by repeat split.
  - destruct (hs !! i) as [h|] eqn:Hi.
    + eexists. split; [done|]. repeat split; simpl; try done.
      apply Forall_insert; [done|]. exact (Forall_lookup_1 _ _ _ _ Hhs Hi).
    + eexists. split; [done|]. by repeat split.
  - destruct (hs !! i) as [h|] eqn:Hi.
    + pose proof (Forall_lookup_1 _ _ _ _ Hhs Hi) as Hh.
      destruct (release_ok _ _ _ _ _ _ Hok Hh) as (o & s' & Hr & Hok' & Ho & _).
      pose proof (lifo_release _ _ _ _ _ Hl Hh Hr) as Hl'.
      rewrite Hr. destruct o as [h'|].
      * eexists. split; [done|]. repeat split; simpl; try done.
        apply Forall_insert; [done|]. by apply Ho.
      * eexists. split; [done|]. repeat split; simpl; try done.
        by apply Forall_delete.
    + eexists. split; [done|]. by repeat split.
  - unfold resource_pool_free_unused.
    destruct (free_unused_ok _ _ _ _ _ Hok) as (s' & Hr & Hok').
    pose proof (lifo_free_unused _ _ _ Hl Hr) as Hl'. rewrite Hr.
    eexists. split; [done|]. by repeat split.
Qed.

Lemma run_ops_ok al rc (c : nat) pool (ops : list op) (cl : @state Value World * list handle) :
  client_ok al rc c (m_pool pool) cl ->
  exists cl', run_ops pool ops cl = Some cl' /\ client_ok al rc c (m_pool pool) cl'.
Proof.
  revert cl. induction ops as [|o ops IH]; intros cl Hcl; simpl.
  - by exists cl.
  - destruct (step_ok _ _ _ _ o _ Hcl) as (cl' & -> & Hcl'). by apply IH.
Qed.

Lemma new_client_ok al rc (c : nat) (w : World) pool s0 :
  resource_pool_new al rc c (init w) = Ret pool s0 ->
  m_pool pool = 0 /\ client_ok al rc c 0 (s0, []).
Proof.
  rewrite pool_new. intros [= <- <-]. split; [done|]. repeat split; simpl.
  - apply pool_new_ok.
  - eexists. split; [apply lookup_insert_eq|]. intros P.
    unfold impl_new. by rewrite v_reserve_new.
  - constructor.
Qed.

(** C2: on a pool constructed with capacity [c], after every sequence of
    allocate(), handle copies and drops, and free_unused(), the run is
    defined, unused_resources() returns at most [c], and the cache of control
    blocks holds at most [c] blocks. *)
Theorem unused_resources_bounded al rc (c : nat) (w : World) (ops : list op) pool s0 :
  resource_pool_new al rc c (init w) = Ret pool s0 ->
  exists s hs this n,
    run_ops pool ops (s0, []) = Some (s, hs) /\
    pools s !! m_pool pool = Some this /\
    resource_pool_unused_resources pool s = Ret n s /\
    n <= c /\
    v_size (m_free_vector_control_blocks this) <= c.
Proof.
  intros Hnew. destruct (new_client_ok _ _ _ _ _ _ Hnew) as [Hp0 Hcl].
  rewrite <- Hp0 in Hcl.
  destruct (run_ops_ok _ _ _ _ ops _ Hcl) as ([s hs] & Hrun & Hok & _ & _).
  destruct Hok as (this & Hp & _ & _ & _ & _ & Hfs & Hcs). simpl in *.
  exists s, hs, this, (v_size (m_free_vector this)).
  repeat split; try done.
  unfold resource_pool_unused_resources. by apply unused_resources_live.
Qed.

Lemma count_events_app (f : @event Value -> bool) (evs tr : list event) :
  count_events f (evs ++ tr) = count_events f evs + count_events f tr.
Proof. unfold count_events. by rewrite List.filter_app, length_app. Qed.

Lemma count_events_none (f : @event Value -> bool) (evs : list event) :
  forallb (fun e => negb (f e)) evs = true -> count_events f evs = 0.
Proof.
  unfold count_events. induction evs as [|e evs IH]; simpl; [done|].
  intros [He Hevs]%andb_prop. destruct (f e); [done | by apply IH].
Qed.

(** After a successful [allocate()] on a pool of capacity [c > 0] the free
    vector has room for the resource just issued. *)
Lemma allocate_leaves_room al rc (c p : nat) s h s' :
  pool_ok al rc c p s -> 0 < c ->
  impl_allocate p s = Ret h s' ->
  exists this',
    pools s' !! p = Some this' /\
    v_size (m_free_vector this') < v_capacity (m_free_vector this') /\
    h_get h = vp_addr (deleter_m_resource (h_deleter h)).
Proof.
  intros (this & Hp & Hal & Hrc & Hfc & Hcc & Hfs & Hcs) Hc.
  unfold v_size in *.
  allocate_paths Hp; intros [= <- <-]; simpl.
  - exists this. rewrite Hfc. unfold v_size. rewrite Hf. simpl. done.
  - eexists. split; [apply lookup_insert_eq|]. unfold v_size; simpl.
    rewrite Hf, length_app in Hfs; simpl in *. split; [lia | done].
  - eexists. split; [apply lookup_insert_eq|]. unfold v_size; simpl.
    rewrite Hf, length_app in Hfs; simpl in *. split; [lia | done].
Qed.

(** A pop from a non-empty free vector: the handle wraps the back of the
    vector and the allocation function is not called. *)
Lemma allocate_reuses (p : nat) s this items r :
  pools s !! p = Some this ->
  v_items (m_free_vector this) = items ++ [r] ->
  exists h s',
    impl_allocate p s = Ret h s' /\
    deleter_m_resource (h_deleter h) = r /\ h_get h = vp_addr r /\
    world s' = world s /\
    count_events is_allocate_call (trace s') = count_events is_allocate_call (trace s).
Proof.
  intros Hp Hf.
  destruct (list_snoc_cases (v_items (m_free_vector_control_blocks this)))
    as [Hc | (cbs & b & Hc)].
  - rewrite (allocate_hit_malloc _ _ _ _ _ Hp Hf Hc). by eexists _, _.
  - rewrite (allocate_hit_cached _ _ _ _ _ _ _ Hp Hf Hc). by eexists _, _.
Qed.

(** C10: the free vector is a stack.  On a pool built by a constructor and
    used through any sequence of operations, when unused_resources() is not
    zero, allocate() returns a handle to the most recently recycled and not
    yet re-issued resource of the history, without calling the allocation
    function. *)
Theorem free_vector_is_lifo al rc (c : nat) (w : World) (ops : list op) pool s0 s hs n :
  resource_pool_new al rc c (init w) = Ret pool s0 ->
  run_ops pool ops (s0, []) = Some (s, hs) ->
  resource_pool_unused_resources pool s = Ret n s ->
  0 < n ->
  exists r h s',
    most_recently_recycled (m_pool pool) [] (trace s) = Some r /\
    resource_pool_allocate pool s = Ret h s' /\
    deleter_m_resource (h_deleter h) = r /\
    h_get h = vp_addr r /\
    count_events is_allocate_call (trace s') = count_events is_allocate_call (trace s).
Proof.
  intros Hnew Hrun Hn Hpos.
  destruct (new_client_ok _ _ _ _ _ _ Hnew) as [Hp0 Hcl]. rewrite <- Hp0 in Hcl.
  destruct (run_ops_ok _ _ _ _ ops _ Hcl) as (cl' & Hrun' & Hok & Hl & _).
  rewrite Hrun in Hrun'. injection Hrun' as <-. simpl in *.
  destruct Hok as (this & Hp & _).
  unfold resource_pool_unused_resources in Hn.
  rewrite (unused_resources_live _ _ _ Hp) in Hn. injection Hn as <-.
  destruct (list_snoc_cases (v_items (m_free_vector this))) as [Hf | (items & r & Hf)].
  - unfold v_size in Hpos. rewrite Hf in Hpos. simpl in Hpos. lia.
  - destruct (allocate_reuses _ _ _ _ _ Hp Hf) as (h & s' & Ha & Hr & Hg & _ & Hcnt).
    exists r, h, s'. split; [by eapply lifo_top|]. done.
Qed.

(** C4: on a pool of capacity [c > 0], whatever happened before, a handle
    obtained from allocate() and dropped at once is followed by an allocate()
    that returns the same resource (same address; its content is what the
    recycle function left) and does not call the allocation function. *)
Theorem roundtrip_reuse al rc (c : nat) (w : World) (ops : list op) pool s0 s hs h s1 :
  0 < c ->
  resource_pool_new al rc c (init w) = Ret pool s0 ->
  run_ops pool ops (s0, []) = Some (s, hs) ->
  resource_pool_allocate pool s = Ret h s1 ->
  exists s2 h2 s3,
    handle_release h s1 = Ret None s2 /\
    resource_pool_allocate pool s2 = Ret h2 s3 /\
    h_get h2 = h_get h /\
    deleter_m_resource (h_deleter h2) =
      (recycled rc (deleter_m_resource (h_deleter h)) (world s1)).1 /\
    world s3 = world s2 /\
    count_events is_allocate_call (trace s3) = count_events is_allocate_call (trace s2).
Proof.
  intros Hc Hnew Hrun Ha.
  destruct (new_client_ok _ _ _ _ _ _ Hnew) as [Hp0 Hcl]. rewrite <- Hp0 in Hcl.
  destruct (run_ops_ok _ _ _ _ ops _ Hcl) as (cl' & Hrun' & Hok & _ & _).
  rewrite Hrun in Hrun'. injection Hrun' as <-. simpl in *.
  unfold resource_pool_allocate in *.
  destruct (allocate_leaves_room _ _ _ _ _ _ _ Hok Hc Ha) as (this1 & Hp1 & Hroom & Hget).
  destruct (allocate_ok _ _ _ _ _ Hok) as [(h' & s1' & Ha' & Hok1 & Hh & Hcount)|(s1' & Ha' & _)];
    rewrite Ha in Ha'; [injection Ha' as <- <- | done].
  destruct Hok1 as (this1' & Hp1' & _ & Hrc & _). rewrite Hp1 in Hp1'. injection Hp1' as <-.
  rewrite (release_live _ _ _ _ Hh Hp1). rewrite Hcount. simpl.
  apply Nat.ltb_lt in Hroom. rewrite Hroom, Hrc.
  apply Nat.ltb_lt in Hroom. rewrite (v_push_back_room _ _ Hroom).
  match goal with
  | |- exists s2 h2 s3, Ret None ?st = _ /\ _ =>
      destruct (allocate_reuses (m_pool pool) st _ _ _ (lookup_insert_eq _ _ _) eq_refl)
        as (h2 & s3 & Ha2 & Hr2 & Hg2 & Hw2 & Hcnt2)
  end.
  eexists _, h2, s3. split; [reflexivity|]. split; [exact Ha2|].
  rewrite Hg2, Hr2, Hget, recycled_addr. done.
Qed.

(** ** Counting the idle resources *)

Lemma run_ops_app pool (ops1 ops2 : list op) (cl : @state Value World * list handle) :
  run_ops pool (ops1 ++ ops2) cl =
  match run_ops pool ops1 cl with
  | Some cl' => run_ops pool ops2 cl'
  | None => None
  end.
Proof.
  revert cl. induction ops1 as [|o ops1 IH]; intros cl; simpl; [done|].
  destruct (step pool o cl); [apply IH | done].
Qed.

(** Right after construction, and right after free_unused(), the free
    vector is empty. *)
Lemma fresh_or_flushed_empty al rc (c : nat) (w : World) (ops : list op) pool s0 s hs :
  resource_pool_new al rc c (init w) = Ret pool s0 ->
  run_ops pool ops (s0, []) = Some (s, hs) ->
  ops = [] \/ (exists ops', ops = ops' ++ [OpFreeUnused]) ->
  exists this, pools s !! m_pool pool = Some this /\ v_items (m_free_vector this) = [].
Proof.
  intros Hnew Hrun [-> | (ops' & ->)].
  - injection Hrun as <- <-. rewrite pool_new in Hnew. injection Hnew as <- <-.
    eexists. split; [apply lookup_insert_eq|]. unfold impl_new. by rewrite v_reserve_new.
  - destruct (new_client_ok _ _ _ _ _ _ Hnew) as [Hp0 Hcl]. rewrite <- Hp0 in Hcl.
    rewrite run_ops_app in Hrun.
    destruct (run_ops_ok _ _ _ _ ops' _ Hcl) as ([s' hs'] & Hrun' & Hok & _ & _).
    rewrite Hrun' in Hrun. simpl in Hrun.
    destruct Hok as (this & Hp & _). simpl in Hp.
    unfold resource_pool_free_unused in Hrun.
    rewrite (free_unused_live _ _ _ Hp) in Hrun. injection Hrun as <- <-.
    eexists. split; [apply lookup_insert_eq|]. done.
Qed.

(** [n] calls of allocate() on an empty free vector leave the pool as it
    was and give [n] handles with one owner each. *)
Lemma allocate_n_miss (p n : nat) s this new s' :
  pools s !! p = Some this ->
  v_items (m_free_vector this) = [] ->
  allocate_n (ResourcePool p) n s = Ret new s' ->
  pools s' = pools s /\ length new = n /\
  Forall (fun h => handle_of p h /\ h_use_count h = 1) new.
Proof.
  revert s new s'. induction n as [|n IH]; intros s new s' Hp Hf; simpl.
  - intros [= <- <-]. by repeat split.
  - unfold bind at 1, resource_pool_allocate. simpl.
    destruct (m_allocate this (world s)) as [[r|] w] eqn:Hal.
    + rewrite (allocate_miss _ _ _ _ _ Hp Hf Hal).
      unfold bind. 
      destruct (allocate_n _ n _) as [hs s''| |] eqn:Hn; try done.
      intros [= <- <-]. apply IH in Hn as (Hpools & Hlen & Hall); [|done..].
      simpl in *. split; [done|]. split; [by rewrite Hlen|].
      constructor; [|done]. by repeat split.
    + by rewrite (allocate_throw _ _ _ _ Hp Hf Hal).
Qed.

Lemma release_all_size al rc (c p : nat) (hs : list handle) s k :
  pool_ok al rc c p s ->
  impl_unused_resources p s = Ret k s ->
  Forall (fun h => handle_of p h /\ h_use_count h = 1) hs ->
  exists s',
    release_all hs s = Ret tt s' /\
    impl_unused_resources p s' = Ret (min (k + length hs) c) s'.
Proof.
  revert s k. induction hs as [|h hs IH]; intros s k Hok Hk Hall; simpl.
  - exists s. split; [done|].
    destruct Hok as (this & Hp & _ & _ & _ & _ & Hfs & _).
    rewrite (unused_resources_live _ _ _ Hp) in Hk |- *. injection Hk as <-.
    f_equal. lia.
  - apply Forall_cons in Hall as [[Hh Hcount] Hall].
    destruct (release_ok _ _ _ _ _ _ Hok Hh) as (o & s1 & Hr & Hok1 & _ & _).
    unfold bind. rewrite Hr.
    destruct Hok as (this & Hp & _ & _ & Hfc & _ & Hfs & _).
    rewrite (unused_resources_live _ _ _ Hp) in Hk. injection Hk as <-.
    rewrite (release_live _ _ _ _ Hh Hp), Hcount in Hr. simpl in Hr.
    injection Hr as <- <-.
    edestruct (IH _ (if v_size (m_free_vector this) <? c then S (v_size (m_free_vector this))
                     else v_size (m_free_vector this)) Hok1) as (s2 & Hrel & Hun); [|done|].
    + erewrite unused_resources_live by (simpl; apply lookup_insert_eq). simpl.
      rewrite Hfc. destruct (Nat.ltb_spec (v_size (m_free_vector this)) c) as [Hlt|Hge]; [|done].
      rewrite v_push_back_room by lia. unfold v_size; simpl.
      rewrite length_app; simpl. do 2 f_equal. lia.
    + exists s2. split; [done|]. rewrite Hun. f_equal.
      destruct (Nat.ltb_spec (v_size (m_free_vector this)) c); lia.
Qed.

(** C5: right after construction or right after a free_unused(), [n]
    successful calls of allocate() followed by the drop of the [n] handles,
    in any order, leave exactly [min n c] idle resources. *)
Theorem drop_all_gives_min al rc (c : nat) (w : World) (ops : list op) pool s0 s hs
    (n : nat) (new order : list handle) s1 :
  resource_pool_new al rc c (init w) = Ret pool s0 ->
  run_ops pool ops (s0, []) = Some (s, hs) ->
  ops = [] \/ (exists ops', ops = ops' ++ [OpFreeUnused]) ->
  allocate_n pool n s = Ret new s1 ->
  new ≡ₚ order ->
  exists s2,
    release_all order s1 = Ret tt s2 /\
    resource_pool_unused_resources pool s2 = Ret (min n c) s2.
Proof.
  intros Hnew Hrun Hops Halloc Hperm.
  destruct (fresh_or_flushed_empty _ _ _ _ _ _ _ _ _ Hnew Hrun Hops) as (this & Hp & Hf).
  destruct (new_client_ok _ _ _ _ _ _ Hnew) as [Hp0 Hcl]. rewrite <- Hp0 in Hcl.
  destruct (run_ops_ok _ _ _ _ ops _ Hcl) as (cl' & Hrun' & Hok & _ & _).
  rewrite Hrun in Hrun'. injection Hrun' as <-. simpl in Hok.
  destruct pool as [p]. simpl in *.
  destruct (allocate_n_miss _ _ _ _ _ _ Hp Hf Halloc) as (Hpools & Hlen & Hall).
  assert (pool_ok al rc c p s1) as Hok1.
  { destruct Hok as (this' & Hp' & Hrest). exists this'. by rewrite Hpools. }
  assert (impl_unused_resources p s1 = Ret 0 s1) as Hzero.
  { erewrite unused_resources_live by (rewrite Hpools; apply Hp).
    unfold v_size. by rewrite Hf. }
  rewrite Hperm in Hall.
  destruct (release_all_size _ _ _ _ _ _ _ Hok1 Hzero Hall) as (s2 & Hrel & Hun).
  exists s2. split; [done|]. unfold resource_pool_unused_resources. simpl.
  by rewrite Hun, <- Hperm, Hlen.
Qed.

(** ** Calls of the recycle function *)

Lemma no_recycle_call_in_frees (l : list nat) :
  count_events is_recycle_call (rev (map (@EvFree Value) l)) = 0.
Proof.
  apply count_events_none, forallb_forall. intros e He.
  apply in_rev, in_map_iff in He. by destruct He as (b & <- & _).
Qed.

Lemma no_recycle_call_in_destroys (l : list (@value_ptr Value)) :
  count_events is_recycle_call (rev (map (fun r => @EvDestroy Value (vp_addr r)) l)) = 0.
Proof.
  apply count_events_none, forallb_forall. intros e He.
  apply in_rev, in_map_iff in He. by destruct He as (b & <- & _).
Qed.

Section RecycleCounter.

(** [counter] reads a counter of the world that the recycle function [f]
    increments and the allocation function leaves alone. *)
Variables (al : @allocate_function Value World) (f : @recycle_function Value World).
Variable counter : World -> nat.
Hypothesis counter_incremented : forall r w, counter (f r w).2 = S (counter w).
Hypothesis counter_kept : forall w, counter (al w).2 = counter w.

Lemma step_recycle_count (c : nat) pool (o : op) (cl cl' : @state Value World * list handle) :
  client_ok al (Some f) c (m_pool pool) cl ->
  step pool o cl = Some cl' ->
  let k := if drops_last o cl then 1 else 0 in
  count_events is_recycle_call (trace cl'.1) = count_events is_recycle_call (trace cl.1) + k /\
  counter (world cl'.1) = counter (world cl.1) + k.
Proof.
  destruct cl as [s hs]. intros ((this & Hp & Hal & Hrc & _) & _ & Hhs). simpl in *.
  destruct o as [|i|i|]; simpl.
  - unfold resource_pool_allocate. allocate_paths Hp; intros [= <-]; simpl;
      rewrite ?Nat.add_0_r; try done.
    + split; [done|]. by rewrite <- (counter_kept (world s)), <- Hal, Hal0.
    + split; [done|]. by rewrite <- (counter_kept (world s)), <- Hal, Hal0.
  - destruct (hs !! i); intros [= <-]; simpl; by rewrite !Nat.add_0_r.
  - destruct (hs !! i) as [h|] eqn:Hi; [|intros [= <-]; simpl; by rewrite !Nat.add_0_r].
    pose proof (Forall_lookup_1 _ _ _ _ Hhs Hi) as Hh.
    rewrite (release_live _ _ _ _ Hh Hp), Hrc.
    destruct (h_use_count h <=? 1); intros [= <-]; simpl.
    + rewrite count_events_app. split; [|rewrite counter_incremented; lia].
      destruct (_ <? _), (_ <? _); simpl; unfold count_events; simpl; lia.
    + by rewrite !Nat.add_0_r.
  - unfold resource_pool_free_unused. rewrite (free_unused_live _ _ _ Hp).
    intros [= <-]; simpl. rewrite !Nat.add_0_r. split; [|done].
    rewrite count_events_app, no_recycle_call_in_frees. simpl.
    change (EvCleared (m_pool pool) :: ?l) with ([EvCleared (m_pool pool)] ++ l).
    by rewrite !count_events_app, no_recycle_call_in_destroys.
Qed.

Lemma run_recycle_count (c : nat) pool (ops : list op)
    (cl cl' : @state Value World * list handle) :
  client_ok al (Some f) c (m_pool pool) cl ->
  run_ops pool ops cl = Some cl' ->
  count_events is_recycle_call (trace cl'.1) =
    count_events is_recycle_call (trace cl.1) + released_count pool ops cl /\
  counter (world cl'.1) = counter (world cl.1) + released_count pool ops cl.
Proof.
  revert cl. induction ops as [|o ops IH]; intros cl Hcl; simpl.
  - intros [= <-]. by rewrite !Nat.add_0_r.
  - destruct (step_ok _ _ _ _ o _ Hcl) as (cl1 & Hstep & Hcl1). rewrite Hstep.
    intros Hrun. destruct (IH _ Hcl1 Hrun) as [IH1 IH2].
    destruct (step_recycle_count _ _ _ _ _ Hcl Hstep) as [H1 H2].
    rewrite IH1, IH2, H1, H2. lia.
Qed.

End RecycleCounter.

(** C6 (amended): on a pool built with a recycle function [f] and still
    alive, the number of calls of [f] equals the number of handles fully
    released, and so does the growth of a counter that [f] increments.  The
    drop of an owner that is not the last changes nothing.  The drop of the
    last owner calls [f] exactly once, on the resource of the handle, before
    the free vector is compared with its capacity: the call is there whether
    the resource is then recycled ([n < c]) or destroyed (free vector
    full). *)
Theorem recycle_function_called_on_last_drop
    al (f : @recycle_function Value World) (counter : World -> nat)
    (c : nat) (w : World) (ops : list op) pool s0 s hs :
  (forall r w', counter (f r w').2 = S (counter w')) ->
  (forall w', counter (al w').2 = counter w') ->
  resource_pool_new al (Some f) c (init w) = Ret pool s0 ->
  run_ops pool ops (s0, []) = Some (s, hs) ->
  count_events is_recycle_call (trace s) = released_count pool ops (s0, []) /\
  counter (world s) = counter w + released_count pool ops (s0, []) /\
  forall i h n,
    hs !! i = Some h ->
    resource_pool_unused_resources pool s = Ret n s ->
    let r := deleter_m_resource (h_deleter h) in
    if h_use_count h <=? 1 then
      exists s' blk,
        handle_release h s = Ret None s' /\
        world s' = (f r (world s)).2 /\
        trace s' =
          blk ++ (if n <? c
                  then EvRecycled (m_pool pool) (ValuePtr (vp_addr r) (f r (world s)).1)
                  else EvDestroy (vp_addr r))
              :: EvRecycleFn r :: trace s /\
        count_events is_recycle_call blk = 0
    else
      exists h', handle_release h s = Ret (Some h') s.
Proof.
  intros Hf Hal Hnew Hrun.
  destruct (new_client_ok _ _ _ _ _ _ Hnew) as [Hp0 Hcl]. rewrite <- Hp0 in Hcl.
  destruct (run_recycle_count al f counter Hf Hal _ _ _ _ _ Hcl Hrun) as [Hcount Hworld].
  destruct (run_ops_ok _ _ _ _ ops _ Hcl) as (cl' & Hrun' & Hok & _ & Hhs).
  rewrite Hrun in Hrun'. injection Hrun' as <-. simpl in *.
  assert (trace s0 = [] /\ world s0 = w) as [Htr Hw].
  { rewrite pool_new in Hnew. by injection Hnew as <- <-. }
  rewrite Htr, Hw in *. split; [exact Hcount|]. split; [exact Hworld|].
  intros i h n Hi Hn.
  pose proof (Forall_lookup_1 _ _ _ _ Hhs Hi) as Hh.
  destruct Hok as (this & Hp & _ & Hrc & Hfc & _).
  unfold resource_pool_unused_resources in Hn.
  rewrite (unused_resources_live _ _ _ Hp) in Hn. injection Hn as <-.
  rewrite (release_live _ _ _ _ Hh Hp), Hrc. cbv zeta. rewrite Hfc. simpl.
  destruct (h_use_count h <=? 1); [|by eexists].
  eexists _, _. split; [reflexivity|]. split; [done|]. split.
  - simpl. destruct (_ <? c); reflexivity.
  - by destruct (_ <? _).
Qed.

(** ** free_unused() *)

(** C7: free_unused() on a live pool empties the free vector and the cache
    of control blocks, destroying exactly the idle resources and giving
    exactly the cached blocks back to the heap; unused_resources() then
    returns 0.  Nothing else changes: a handle still held is released
    afterwards as usual, its resource going back to the free vector. *)
Theorem free_unused_empties pool s this :
  pools s !! m_pool pool = Some this ->
  exists s' this',
    resource_pool_free_unused pool s = Ret tt s' /\
    pools s' !! m_pool pool = Some this' /\
    v_items (m_free_vector this') = [] /\
    v_items (m_free_vector_control_blocks this') = [] /\
    resource_pool_unused_resources pool s' = Ret 0 s' /\
    trace s' =
      rev (map EvFree (v_items (m_free_vector_control_blocks this)))
        ++ EvCleared (m_pool pool)
        :: rev (map (fun r => EvDestroy (vp_addr r)) (v_items (m_free_vector this)))
        ++ trace s /\
    world s' = world s /\
    (forall q, q <> m_pool pool -> pools s' !! q = pools s !! q) /\
    (forall h,
       handle_of (m_pool pool) h -> h_use_count h <= 1 ->
       0 < v_capacity (m_free_vector this) ->
       exists s'',
         handle_release h s' = Ret None s'' /\
         resource_pool_unused_resources pool s'' = Ret 1 s'').
Proof.
  intros Hp. unfold resource_pool_free_unused, resource_pool_unused_resources.
  rewrite (free_unused_live _ _ _ Hp).
  eexists _, _. split; [reflexivity|]. split; [apply lookup_insert_eq|].
  split; [done|]. split; [done|]. split.
  { erewrite unused_resources_live by apply lookup_insert_eq. done. }
  split; [done|]. split; [done|]. split.
  { intros q Hq. simpl. by rewrite lookup_insert_ne. }
  intros h Hh Hcount Hcap.
  erewrite (release_live _ _ _ _ Hh) by apply lookup_insert_eq.
  apply Nat.leb_le in Hcount. rewrite Hcount.
  eexists. split; [reflexivity|].
  erewrite unused_resources_live by apply lookup_insert_eq.
  simpl. unfold v_size at 1. simpl.
  apply Nat.ltb_lt in Hcap.
  change (v_size (v_clear (m_free_vector this))) with 0. rewrite Hcap.
  unfold v_push_back.
  change (v_size (v_clear (m_free_vector this))) with 0. simpl. by rewrite Hcap.
Qed.

(** ** Failure of the allocation function *)

(** C9: when allocate() calls the allocation function (the free vector is
    empty) and the function throws, allocate() throws; the pools, hence the
    free vector and the cache of control blocks, are as before the call and
    no control block was allocated.  A following allocate() for which the
    function succeeds returns a handle to the new resource. *)
Theorem allocate_failure_is_propagated pool s this (w1 : World) :
  pools s !! m_pool pool = Some this ->
  v_items (m_free_vector this) = [] ->
  m_allocate this (world s) = (None, w1) ->
  exists s1,
    resource_pool_allocate pool s = Throw s1 /\
    pools s1 = pools s /\
    next_block s1 = next_block s /\
    world s1 = w1 /\
    trace s1 = EvAllocateFn None :: trace s /\
    forall r w2,
      m_allocate this w1 = (Some r, w2) ->
      exists h s2,
        resource_pool_allocate pool s1 = Ret h s2 /\
        deleter_m_resource (h_deleter h) = r /\
        h_get h = vp_addr r /\
        h_use_count h = 1 /\
        pools s2 = pools s.
Proof.
  intros Hp Hf Hal. unfold resource_pool_allocate.
  rewrite (allocate_throw _ _ _ _ Hp Hf Hal).
  eexists. split; [reflexivity|]. do 4 (split; [done|]).
  intros r w2 Hal2.
  erewrite allocate_miss by (simpl; eauto). by eexists _, _.
Qed.

(** ** Where control blocks come from and go to *)

(** C3 (amended): a handle that wraps a resource popped from the free
    vector takes the back block of the cache when there is one, without a
    call of malloc, and a block from malloc when the cache is empty.  A
    handle that wraps a new resource (free vector empty) always takes its
    block from malloc and leaves the cache as it is.  When the block of a
    handle of a live pool is released it is pushed on the cache if the cache
    holds fewer blocks than its capacity, and given to free otherwise. *)
Theorem control_block_source_and_sink (p : nat) s this :
  pools s !! p = Some this ->
  let cb := m_free_vector_control_blocks this in
  (forall items r,
     v_items (m_free_vector this) = items ++ [r] ->
     exists h s' this',
       impl_allocate p s = Ret h s' /\
       pools s' !! p = Some this' /\
       match v_back cb with
       | Some b =>
           h_block h = b /\
           m_free_vector_control_blocks this' = v_pop_back cb /\
           count_events is_malloc (trace s') = count_events is_malloc (trace s) /\
           next_block s' = next_block s
       | None =>
           h_block h = next_block s /\
           m_free_vector_control_blocks this' = cb /\
           trace s' = EvMalloc (next_block s) :: EvReissued p r :: trace s
       end) /\
  (forall r w,
     v_items (m_free_vector this) = [] ->
     m_allocate this (world s) = (Some r, w) ->
     exists h s',
       impl_allocate p s = Ret h s' /\
       h_block h = next_block s /\
       pools s' = pools s /\
       trace s' = EvMalloc (next_block s) :: EvAllocateFn (Some r) :: trace s) /\
  (forall (a : SimpleAllocator) (b : nat),
     alloc_m_impl a = p ->
     exists s' this',
       SimpleAllocator_deallocate a b s = Ret tt s' /\
       pools s' !! p = Some this' /\
       if v_size cb <? v_capacity cb
       then v_items (m_free_vector_control_blocks this') = v_items cb ++ [b] /\
            v_capacity (m_free_vector_control_blocks this') = v_capacity cb /\
            trace s' = trace s
       else m_free_vector_control_blocks this' = cb /\
            trace s' = EvFree b :: trace s).
Proof.
  intros Hp cb. split; [|split].
  - intros items r Hf.
    destruct (list_snoc_cases (v_items cb)) as [Hc | (cbs & b & Hc)].
    + rewrite (allocate_hit_malloc _ _ _ _ _ Hp Hf Hc).
      eexists _, _, _. split; [reflexivity|]. split; [apply lookup_insert_eq|].
      unfold v_back. rewrite Hc. done.
    + rewrite (allocate_hit_cached _ _ _ _ _ _ _ Hp Hf Hc).
      eexists _, _, _. split; [reflexivity|]. split; [apply lookup_insert_eq|].
      unfold v_back. rewrite Hc, last_snoc. simpl.
      unfold v_pop_back. by rewrite Hc, removelast_last.
  - intros r w Hf Hal. rewrite (allocate_miss _ _ _ _ _ Hp Hf Hal). by eexists _, _.
  - intros a b <-. rewrite (deallocate_live _ _ _ _ Hp). fold cb.
    destruct (Nat.ltb_spec (v_size cb) (v_capacity cb)) as [Hlt|Hge].
    + eexists _, _. split; [reflexivity|]. split; [apply lookup_insert_eq|]. simpl.
      by rewrite (v_push_back_room _ _ Hlt).
    + eexists _, _. split; [reflexivity|]. split; [exact Hp|]. done.
Qed.

(** ** A handle that outlives its pool *)

(** The deleter notices that the pool is gone, but the allocator stored in
    the control block does not: it dereferences the destroyed [impl]. *)
Lemma release_dead (p : nat) h s :
  handle_of p h -> pools s !! p = None -> h_use_count h <= 1 ->
  sp_dispose h s =
    Ret tt (State (pools s) (world s)
                  (EvDestroy (vp_addr (deleter_m_resource (h_deleter h))) :: trace s)
                  (next_block s) (next_pool s)) /\
  handle_release h s = Fault (UseAfterFree p).
Proof.
  intros [Hd Ha] Hp Hcount. apply Nat.leb_le in Hcount.
  assert (sp_dispose h s =
          Ret tt (State (pools s) (world s)
                        (EvDestroy (vp_addr (deleter_m_resource (h_deleter h))) :: trace s)
                        (next_block s) (next_pool s))) as Hdispose.
  { unfold sp_dispose. apply deleter_dead. by rewrite Hd. }
  split; [exact Hdispose|].
  unfold handle_release. rewrite Hcount. unfold bind at 1. rewrite Hdispose.
  unfold bind, sp_destroy. rewrite deallocate_dead by (simpl; by rewrite Ha).
  by rewrite Ha.
Qed.

(** ** Copies of a pool *)

Lemma v_reserve_items {A} (n : nat) (v : vector A) : v_items (v_reserve n v) = v_items v.
Proof. unfold v_reserve. by destruct (_ <? _). Qed.

Lemma copy_loop_spec al (k : nat) (v v' : vector value_ptr) s s' :
  copy_loop al k v s = Ret v' s' ->
  v_size v + k <= v_capacity v ->
  pools s' = pools s /\ next_pool s' = next_pool s /\
  v_capacity v' = v_capacity v /\ v_size v' = v_size v + k /\
  count_events is_allocate_call (trace s') = count_events is_allocate_call (trace s) + k.
Proof.
  revert v s. induction k as [|k IH]; intros v s; simpl.
  - intros [= <- <-] _. by rewrite !Nat.add_0_r.
  - unfold bind, call_allocate.
    destruct (al (world s)) as [[r|] w]; [|done].
    intros Hloop Hroom. apply IH in Hloop.
    + rewrite v_push_back_room in Hloop by lia. unfold v_size in *. simpl in *.
      rewrite length_app in Hloop. simpl in Hloop.
      destruct Hloop as (-> & -> & -> & -> & ->). unfold count_events. simpl.
      repeat split; lia.
    + rewrite v_push_back_room by lia. unfold v_size in *. simpl.
      rewrite length_app. simpl. lia.
Qed.

(** As long as the number of idle resources fits [uint32_t], a copy that
    completes has called the allocation function once per idle resource of
    the original, holds as many idle resources, and is a pool of its own. *)
Lemma copy_rebuilds_idle_resources (p : nat) s other copy s' :
  pools s !! p = Some other ->
  v_wf (m_free_vector other) ->
  (Z.of_nat (v_size (m_free_vector other)) < 2 ^ 32)%Z ->
  resource_pool_copy (ResourcePool p) s = Ret copy s' ->
  m_pool copy = next_pool s /\
  count_events is_allocate_call (trace s') =
    count_events is_allocate_call (trace s) + v_size (m_free_vector other) /\
  resource_pool_unused_resources copy s' = Ret (v_size (m_free_vector other)) s' /\
  (forall q, q <> next_pool s -> pools s' !! q = pools s !! q).
Proof.
  intros Hp Hwf Hsmall. unfold resource_pool_copy, bind, get_impl. simpl. rewrite Hp.
  unfold impl_copy, bind, to_uint32.
  rewrite Z.mod_small by lia. rewrite Nat2Z.id.
  destruct (copy_loop _ _ _ s) as [fv' s1| |] eqn:Hloop; try done.
  apply copy_loop_spec in Hloop.
  - destruct Hloop as (Hpools & Hnext & Hcap & Hsize & Hcalls).
    unfold v_size in Hsize at 2. rewrite v_reserve_items in Hsize. simpl in Hsize.
    intros [= <- <-]. simpl. rewrite Hnext, Hpools. split; [done|]. split; [done|]. split.
    + unfold resource_pool_unused_resources. simpl.
      erewrite unused_resources_live by (simpl; apply lookup_insert_eq). simpl.
      by rewrite Hsize.
    + intros q Hq. by rewrite lookup_insert_ne.
  - unfold v_size at 1. rewrite v_reserve_items. simpl.
    unfold v_reserve, v_new. simpl. unfold v_wf in Hwf.
    destruct (Nat.ltb_spec 0 (v_capacity (m_free_vector other))); simpl; lia.
Qed.

(** When the idle count is a multiple of [2^32] the loop of the copy
    constructor does not run. *)
Lemma copy_truncated (p : nat) s other :
  pools s !! p = Some other ->
  to_uint32 (v_size (m_free_vector other)) = 0%Z ->
  resource_pool_copy (ResourcePool p) s =
  Ret (ResourcePool (next_pool s))
      (State (<[next_pool s :=
                  Impl (m_allocate other) (m_recycle other)
                       (v_reserve (v_capacity (m_free_vector other)) v_new)
                       (v_reserve (v_capacity (m_free_vector_control_blocks other)) v_new)]>
                (pools s))
             (world s) (trace s) (next_block s) (S (next_pool s))).
Proof.
  intros Hp Hzero. unfold resource_pool_copy, bind, get_impl. simpl. rewrite Hp.
  unfold impl_copy, bind. rewrite Hzero. simpl. by destruct s.
Qed.

(** The operations on a pool and on its handles leave every other pool as it
    is. *)
Lemma operations_are_local (p q : nat) s :
  p <> q ->
  match impl_allocate p s with
  | Ret _ s' | Throw s' => pools s' !! q = pools s !! q
  | Fault _ => True
  end /\
  match impl_free_unused p s with
  | Ret _ s' | Throw s' => pools s' !! q = pools s !! q
  | Fault _ => True
  end /\
  forall h, handle_of p h ->
    match handle_release h s with
    | Ret _ s' | Throw s' => pools s' !! q = pools s !! q
    | Fault _ => True
    end.
Proof.
  intros Hpq. destruct (pools s !! p) as [this|] eqn:Hp.
  - split; [|split].
    + allocate_paths Hp; simpl; by rewrite ?lookup_insert_ne.
    + rewrite (free_unused_live _ _ _ Hp). simpl. by rewrite lookup_insert_ne.
    + intros h Hh. rewrite (release_live _ _ _ _ Hh Hp).
      destruct (_ <=? _); simpl; by rewrite ?lookup_insert_ne.
  - split; [|split].
    + unfold impl_allocate, bind, get_impl. by rewrite Hp.
    + unfold impl_free_unused, bind, get_impl. by rewrite Hp.
    + intros h Hh. destruct (Nat.leb_spec (h_use_count h) 1) as [Hle|Hgt].
      * by destruct (release_dead _ h s Hh Hp Hle) as [_ ->].
      * unfold handle_release. destruct (Nat.leb_spec (h_use_count h) 1); [lia|done].
Qed.

(** An allocation function that never throws gives as many handles as
    asked. *)
Lemma allocate_n_total (p n : nat) s this :
  (forall w, exists r w', m_allocate this w = (Some r, w')) ->
  pools s !! p = Some this ->
  v_items (m_free_vector this) = [] ->
  exists new s', allocate_n (ResourcePool p) n s = Ret new s'.
Proof.
  intros Htotal. revert s. induction n as [|n IH]; intros s Hp Hf.
  - by eexists _, _.
  - cbn [allocate_n]. unfold bind at 1, resource_pool_allocate. cbn [m_pool].
    destruct (Htotal (world s)) as (r & w & Hal).
    rewrite (allocate_miss _ _ _ _ _ Hp Hf Hal).
    edestruct (IH (State (pools s) w (EvMalloc (next_block s) :: EvAllocateFn (Some r) :: trace s)
                         (S (next_block s)) (next_pool s))) as (new & s' & Hn); [done..|].
    unfold bind. rewrite Hn. by eexists _, _.
Qed.

(** ** Accounting of control blocks and resources *)

Lemma readers_frees (l : list nat) (tr : list (@event Value)) :
  malloced (rev (map EvFree l) ++ tr) = malloced tr /\
  freed (rev (map EvFree l) ++ tr) = rev l ++ freed tr /\
  allocated (rev (map EvFree l) ++ tr) = allocated tr /\
  destroyed (rev (map EvFree l) ++ tr) = destroyed tr.
Proof.
  revert tr. induction l as [|b l IH]; intros tr; simpl; [done|].
  rewrite <- (app_assoc _ [EvFree b] tr).
  change ([EvFree b] ++ tr) with (EvFree b :: tr).
  destruct (IH (EvFree b :: tr)) as (-> & -> & -> & ->).
  by rewrite <- (app_assoc (rev l)).
Qed.

Lemma readers_destroys (l : list (@value_ptr Value)) (tr : list (@event Value)) :
  let evs := rev (map (fun r => EvDestroy (vp_addr r)) l) in
  malloced (evs ++ tr) = malloced tr /\
  freed (evs ++ tr) = freed tr /\
  allocated (evs ++ tr) = allocated tr /\
  destroyed (evs ++ tr) = rev (vp_addr <$> l) ++ destroyed tr.
Proof.
  revert tr. induction l as [|r l IH]; intros tr; simpl; [done|].
  rewrite <- (app_assoc _ [EvDestroy (vp_addr r)] tr).
  change ([EvDestroy (vp_addr r)] ++ tr) with (@EvDestroy Value (vp_addr r) :: tr).
  destruct (IH (EvDestroy (vp_addr r) :: tr)) as (-> & -> & -> & ->).
  by rewrite <- (app_assoc _ [vp_addr r]).
Qed.

Lemma readers_recycle_events rc r (tr : list (@event Value)) :
  malloced (recycle_events rc r ++ tr) = malloced tr /\
  freed (recycle_events rc r ++ tr) = freed tr /\
  allocated (recycle_events rc r ++ tr) = allocated tr /\
  destroyed (recycle_events rc r ++ tr) = destroyed tr.
Proof. by destruct rc. Qed.

Lemma fmap_insert_same {A B} (f : A -> B) (l : list A) (i : nat) (x y : A) :
  l !! i = Some x -> f y = f x -> f <$> <[i:=y]> l = f <$> l.
Proof.
  intros Hi Hf. rewrite list_fmap_insert, Hf.
  apply list_insert_id. by rewrite list_lookup_fmap, Hi.
Qed.

Lemma fresh_block (b : nat) (l : list nat) :
  NoDup l -> Forall (fun x => x < b) l ->
  NoDup (b :: l) /\ Forall (fun x => x < S b) (b :: l).
Proof.
  intros Hnd Hlt. split.
  - apply NoDup_cons. split; [|done]. intros Hin.
    rewrite Forall_forall in Hlt. apply Hlt in Hin. lia.
  - constructor; [lia|]. eapply Forall_impl; [exact Hlt|]. simpl. intros; lia.
Qed.

Lemma malloced_cons (e : @event Value) tr :
  malloced (e :: tr) = match e with EvMalloc b => b :: malloced tr | _ => malloced tr end.
Proof. by destruct e. Qed.

Lemma freed_cons (e : @event Value) tr :
  freed (e :: tr) = match e with EvFree b => b :: freed tr | _ => freed tr end.
Proof. by destruct e. Qed.

Lemma allocated_cons (e : @event Value) tr :
  allocated (e :: tr) =
  match e with EvAllocateFn (Some r) => vp_addr r :: allocated tr | _ => allocated tr end.
Proof. by destruct e as [[?|]| | | | | | |]. Qed.

Lemma destroyed_cons (e : @event Value) tr :
  destroyed (e :: tr) = match e with EvDestroy a => a :: destroyed tr | _ => destroyed tr end.
Proof. by destruct e. Qed.

Ltac read_trace :=
  rewrite ?malloced_cons, ?freed_cons, ?allocated_cons, ?destroyed_cons; simpl.

Lemma step_accounted al rc (c : nat) pool (o : op) (cl cl' : @state Value World * list handle) :
  client_ok al rc c (m_pool pool) cl ->
  accounted (m_pool pool) cl ->
  step pool o cl = Some cl' ->
  accounted (m_pool pool) cl'.
Proof.
  destruct cl as [s hs].
  intros ((this' & Hp' & _ & _ & Hfc & Hcc & _) & _ & Hhs)
         (this & Hp & Hblk & Hres & Hnd & Hlt & Hsz & Hget). simpl in *.
  rewrite Hp in Hp'. injection Hp' as <-.
  destruct o as [|i|i|]; simpl.
  - unfold resource_pool_allocate. clear Hfc Hcc.
    destruct this as [al' rc' [fi fc] [ci cc]]; unfold v_size in *; simpl in *.
    allocate_paths Hp; simpl in *; subst; intros [= <-].
    + eexists. split; [exact Hp|]. simpl. read_trace.
      destruct (fresh_block _ _ Hnd Hlt) as [Hnd' Hlt'].
      rewrite !fmap_snoc. simpl.
      split; [rewrite Hblk; solve_Permutation|].
      split; [rewrite Hres; solve_Permutation|].
      do 3 (split; [done|]). apply Forall_app. split; [done|]. by constructor.
    + eexists. split; [exact Hp|]. simpl. read_trace. done.
    + eexists. split; [apply lookup_insert_eq|]. simpl. read_trace.
      destruct (fresh_block _ _ Hnd Hlt) as [Hnd' Hlt'].
      rewrite !fmap_snoc. simpl. rewrite fmap_snoc in Hres.
      rewrite length_app in Hsz. simpl in Hsz. exfalso. lia.
    + eexists. split; [apply lookup_insert_eq|]. simpl. read_trace.
      rewrite !fmap_snoc. simpl. rewrite fmap_snoc in Hres.
      rewrite !length_app in Hsz. simpl in Hsz.
      split; [rewrite Hblk; solve_Permutation|].
      split; [rewrite Hres; solve_Permutation|].
      do 2 (split; [done|]). split; [unfold v_size; simpl; lia|].
      apply Forall_app. split; [done|]. by constructor.
  - destruct (hs !! i) as [h|] eqn:Hi; intros [= <-]; [|by exists this].
    exists this. simpl. split; [done|].
    rewrite !(fmap_insert_same _ _ _ h) by done.
    do 5 (split; [done|]).
    apply Forall_insert; [done|]. exact (Forall_lookup_1 _ _ _ _ Hget Hi).
  - destruct (hs !! i) as [h|] eqn:Hi; [|intros [= <-]; by exists this].
    pose proof (Forall_lookup_1 _ _ _ _ Hhs Hi) as Hh.
    pose proof (Forall_lookup_1 _ _ _ _ Hget Hi) as Hgh. simpl in Hgh.
    rewrite (release_live _ _ _ _ Hh Hp).
    destruct (h_use_count h <=? 1).
    + intros [= <-]. eexists. split; [apply lookup_insert_eq|]. simpl.
      rewrite (delete_Permutation _ _ _ Hi), !fmap_cons in Hblk, Hres.
      destruct (readers_recycle_events (m_recycle this) (deleter_m_resource (h_deleter h))
                  (trace s)) as (E1 & E2 & E3 & E4).
      unfold v_size in *.
      destruct (Nat.ltb_spec (length (v_items (m_free_vector_control_blocks this)))
                             (v_capacity (m_free_vector_control_blocks this))) as [Hcr|Hcr];
        destruct (Nat.ltb_spec (length (v_items (m_free_vector this)))
                               (v_capacity (m_free_vector this))) as [Hfr|Hfr];
        simpl; read_trace; rewrite E1, E2, E3, E4;
        rewrite ?v_push_back_room by done; simpl;
        rewrite ?fmap_snoc, ?recycled_addr, ?length_app; simpl;
        (split; [rewrite Hblk; solve_Permutation|]);
        (split; [rewrite Hres, Hgh; solve_Permutation|]);
        (do 2 (split; [done|]));
        (split; [unfold v_size; simpl; rewrite ?length_app; simpl; lia|]);
        by apply Forall_delete.
    + intros [= <-]. exists this. simpl. split; [done|].
      rewrite !(fmap_insert_same _ _ _ h) by done.
      do 5 (split; [done|]).
      apply Forall_insert; [done|]. exact Hgh.
  - unfold resource_pool_free_unused. rewrite (free_unused_live _ _ _ Hp).
    intros [= <-]. eexists. split; [apply lookup_insert_eq|]. simpl.
    destruct (readers_frees (v_items (m_free_vector_control_blocks this))
                (EvCleared (m_pool pool)
                   :: rev (map (fun r => EvDestroy (vp_addr r)) (v_items (m_free_vector this)))
                   ++ trace s)) as (-> & -> & -> & ->).
    read_trace.
    destruct (readers_destroys (v_items (m_free_vector this)) (trace s)) as (-> & -> & -> & ->).
    split; [rewrite Hblk, <- Permutation_rev; solve_Permutation|].
    split; [rewrite Hres, <- Permutation_rev; solve_Permutation|].
    done.
Qed.

Lemma run_accounted al rc (c : nat) pool (ops : list op)
    (cl cl' : @state Value World * list handle) :
  client_ok al rc c (m_pool pool) cl ->
  accounted (m_pool pool) cl ->
  run_ops pool ops cl = Some cl' ->
  client_ok al rc c (m_pool pool) cl' /\ accounted (m_pool pool) cl'.
Proof.
  revert cl. induction ops as [|o ops IH]; intros cl Hcl Hacc; simpl.
  - by intros [= <-].
  - destruct (step_ok _ _ _ _ o _ Hcl) as (cl1 & Hstep & Hcl1). rewrite Hstep.
    intros Hrun. eapply IH; [exact Hcl1 | exact (step_accounted _ _ _ _ _ _ _ Hcl Hacc Hstep) | exact Hrun].
Qed.

Lemma reachable_accounted al rc (c : nat) (w : World) (ops : list op) pool s0 s hs :
  resource_pool_new al rc c (init w) = Ret pool s0 ->
  run_ops pool ops (s0, []) = Some (s, hs) ->
  client_ok al rc c (m_pool pool) (s, hs) /\ accounted (m_pool pool) (s, hs).
Proof.
  intros Hnew Hrun.
  destruct (new_client_ok _ _ _ _ _ _ Hnew) as [Hp0 Hcl]. rewrite <- Hp0 in Hcl.
  eapply run_accounted; [exact Hcl| |exact Hrun].
  rewrite pool_new in Hnew. injection Hnew as <- <-.
  eexists. split; [apply lookup_insert_eq|]. simpl.
  unfold impl_new. rewrite !v_reserve_new.
  unfold malloced, freed, allocated, destroyed. simpl.
  repeat split; try done. apply NoDup_nil_2.
Qed.

(** X1: along every run on a pool, each control block obtained from malloc
    is in exactly one place: freed, in the cache of the pool, or in use by
    one outstanding handle.  No block is freed twice, cached twice, or both
    cached and in use. *)
Theorem control_blocks_accounted al rc (c : nat) (w : World) (ops : list op) pool s0 s hs :
  resource_pool_new al rc c (init w) = Ret pool s0 ->
  run_ops pool ops (s0, []) = Some (s, hs) ->
  exists this,
    pools s !! m_pool pool = Some this /\
    malloced (trace s) ≡ₚ
      freed (trace s) ++ v_items (m_free_vector_control_blocks this) ++ (h_block <$> hs) /\
    NoDup (freed (trace s) ++ v_items (m_free_vector_control_blocks this) ++ (h_block <$> hs)).
Proof.
  intros Hnew Hrun.
  destruct (reachable_accounted _ _ _ _ _ _ _ _ _ Hnew Hrun)
    as (_ & this & Hp & Hblk & _ & Hnd & _).
  exists this. simpl in *. split; [done|]. split; [done|]. by rewrite <- Hblk.
Qed.

(** X2: along every run on a pool, each resource returned by the allocation
    function is in exactly one place: idle in the free vector, held by one
    outstanding handle (which points to it), or destroyed.  If the allocation
    function never returned the same address twice, a resource held by a
    handle is neither idle nor destroyed, and no resource is destroyed
    twice. *)
Theorem resources_accounted al rc (c : nat) (w : World) (ops : list op) pool s0 s hs :
  resource_pool_new al rc c (init w) = Ret pool s0 ->
  run_ops pool ops (s0, []) = Some (s, hs) ->
  exists this,
    pools s !! m_pool pool = Some this /\
    allocated (trace s) ≡ₚ
      (vp_addr <$> v_items (m_free_vector this)) ++ (h_get <$> hs) ++ destroyed (trace s) /\
    Forall (fun h => h_get h = vp_addr (deleter_m_resource (h_deleter h))) hs /\
    (NoDup (allocated (trace s)) ->
     NoDup ((vp_addr <$> v_items (m_free_vector this)) ++ (h_get <$> hs)
              ++ destroyed (trace s))).
Proof.
  intros Hnew Hrun.
  destruct (reachable_accounted _ _ _ _ _ _ _ _ _ Hnew Hrun)
    as (_ & this & Hp & _ & Hres & _ & _ & _ & Hget).
  exists this. simpl in *. split; [done|]. split; [done|]. split; [done|].
  intros Hnd. by rewrite <- Hres.
Qed.

Lemma destroy_live (p : nat) s this :
  pools s !! p = Some this ->
  impl_destroy p s =
  Ret tt (State (delete p (pools s)) (world s)
                (rev (map EvFree (v_items (m_free_vector_control_blocks this)))
                   ++ EvCleared p
                   :: rev (map (fun r => EvDestroy (vp_addr r)) (v_items (m_free_vector this)))
                   ++ trace s)
                (next_block s) (next_pool s)).
Proof.
  intros Hp. unfold impl_destroy, bind, get_impl. rewrite Hp.
  rewrite (for_each_emit (fun r => EvDestroy (vp_addr r))). simpl.
  by rewrite for_each_free.
Qed.

(** What the destruction of an [impl] leaves in the trace. *)
Lemma readers_teardown (p : nat) this (tr : list (@event Value)) :
  let tr' := rev (map EvFree (v_items (m_free_vector_control_blocks this)))
               ++ EvCleared p
               :: rev (map (fun r => EvDestroy (vp_addr r)) (v_items (m_free_vector this)))
               ++ tr in
  malloced tr' = malloced tr /\
  freed tr' = rev (v_items (m_free_vector_control_blocks this)) ++ freed tr /\
  allocated tr' = allocated tr /\
  destroyed tr' = rev (vp_addr <$> v_items (m_free_vector this)) ++ destroyed tr /\
  count_events is_allocate_call tr' = count_events is_allocate_call tr /\
  count_events is_recycle_call tr' = count_events is_recycle_call tr.
Proof.
  simpl.
  destruct (readers_frees (v_items (m_free_vector_control_blocks this))
              (EvCleared p
                 :: rev (map (fun r => EvDestroy (vp_addr r)) (v_items (m_free_vector this)))
                 ++ tr)) as (-> & -> & -> & ->).
  read_trace.
  destruct (readers_destroys (v_items (m_free_vector this)) tr) as (-> & -> & -> & ->).
  do 4 (split; [done|]).
  change (EvCleared p :: ?l) with ([EvCleared p] ++ l).
  rewrite !count_events_app.
  rewrite (count_events_none is_allocate_call (rev (map EvFree _))),
          (count_events_none is_allocate_call (rev (map _ (v_items (m_free_vector this))))),
          no_recycle_call_in_frees, no_recycle_call_in_destroys; [done| |].
  - apply forallb_forall. intros e He. apply in_rev, in_map_iff in He.
    by destruct He as (b & <- & _).
  - apply forallb_forall. intros e He. apply in_rev, in_map_iff in He.
    by destruct He as (b & <- & _).
Qed.

(** X3: destroying the pool after any run gives every cached control block
    back to the heap and destroys every idle resource.  Afterwards each block
    ever obtained from malloc is either freed, exactly once, or in use by an
    outstanding handle, and each resource ever allocated is either destroyed
    or held by an outstanding handle; with no handle outstanding nothing is
    left. *)
Theorem teardown_releases_everything al rc (c : nat) (w : World) (ops : list op)
    pool s0 s hs :
  resource_pool_new al rc c (init w) = Ret pool s0 ->
  run_ops pool ops (s0, []) = Some (s, hs) ->
  exists s',
    resource_pool_destroy pool s = Ret tt s' /\
    pools s' !! m_pool pool = None /\
    world s' = world s /\
    malloced (trace s') ≡ₚ freed (trace s') ++ (h_block <$> hs) /\
    NoDup (freed (trace s') ++ (h_block <$> hs)) /\
    allocated (trace s') ≡ₚ destroyed (trace s') ++ (h_get <$> hs) /\
    (hs = [] ->
     malloced (trace s') ≡ₚ freed (trace s') /\
     allocated (trace s') ≡ₚ destroyed (trace s')).
Proof.
  intros Hnew Hrun.
  destruct (reachable_accounted _ _ _ _ _ _ _ _ _ Hnew Hrun)
    as (_ & this & Hp & Hblk & Hres & Hnd & _). simpl in *.
  unfold resource_pool_destroy. rewrite (destroy_live _ _ _ Hp).
  eexists. split; [reflexivity|]. simpl.
  split; [apply lookup_delete_eq|]. split; [done|].
  destruct (readers_teardown (m_pool pool) this (trace s)) as (-> & -> & -> & -> & _).
  assert (malloced (trace s) ≡ₚ
          (rev (v_items (m_free_vector_control_blocks this)) ++ freed (trace s))
            ++ (h_block <$> hs)) as Hblk'
    by (rewrite Hblk, <- Permutation_rev; solve_Permutation).
  assert (allocated (trace s) ≡ₚ
          (rev (vp_addr <$> v_items (m_free_vector this)) ++ destroyed (trace s))
            ++ (h_get <$> hs)) as Hres'
    by (rewrite Hres, <- Permutation_rev; solve_Permutation).
  split; [done|]. split; [by rewrite <- Hblk'|]. split; [done|].
  intros ->. simpl in *. by rewrite !app_nil_r in Hblk', Hres'.
Qed.


(** X5: a pool of capacity 0 recycles nothing.  After any run it holds no
    idle resource; the drop of the last owner of a handle still calls the
    recycle function, then destroys the resource and frees the control block,
    leaving the pool as it was; and allocate() always calls the allocation
    function and malloc. *)
Theorem zero_capacity_recycles_nothing al rc (w : World) (ops : list op) pool s0 s hs :
  resource_pool_new al rc 0 (init w) = Ret pool s0 ->
  run_ops pool ops (s0, []) = Some (s, hs) ->
  resource_pool_unused_resources pool s = Ret 0 s /\
  (forall i h,
     hs !! i = Some h -> h_use_count h <= 1 ->
     let r := deleter_m_resource (h_deleter h) in
     handle_release h s =
     Ret None (State (pools s) (recycled rc r (world s)).2
                     (EvFree (h_block h) :: EvDestroy (h_get h)
                        :: recycle_events rc r ++ trace s)
                     (next_block s) (next_pool s))) /\
  match resource_pool_allocate pool s with
  | Ret h s' =>
      exists r, trace s' = EvMalloc (next_block s) :: EvAllocateFn (Some r) :: trace s
  | Throw s' => trace s' = EvAllocateFn None :: trace s
  | Fault _ => False
  end.
Proof.
  intros Hnew Hrun.
  destruct (reachable_accounted _ _ _ _ _ _ _ _ _ Hnew Hrun)
    as ((Hok & _ & Hhs) & this' & Hp' & _ & _ & _ & _ & _ & Hget). simpl in *.
  destruct Hok as (this & Hp & _ & Hrc & Hfc & Hcc & Hfs & Hcs).
  unfold resource_pool_unused_resources, resource_pool_allocate.
  assert (v_items (m_free_vector this) = []) as Hf.
  { unfold v_size in Hfs. destruct (v_items (m_free_vector this)); [done|simpl in Hfs; lia]. }
  split; [|split].
  - rewrite (unused_resources_live _ _ _ Hp). unfold v_size. by rewrite Hf.
  - intros i h Hi Hcount.
    pose proof (Forall_lookup_1 _ _ _ _ Hhs Hi) as Hh.
    pose proof (Forall_lookup_1 _ _ _ _ Hget Hi) as Hgh. simpl in Hgh.
    rewrite (release_live _ _ _ _ Hh Hp). apply Nat.leb_le in Hcount. rewrite Hcount.
    cbv zeta. rewrite Hfc, Hcc, Hrc, Hgh.
    replace (v_size (m_free_vector this) <? 0) with false
      by (symmetry; apply Nat.ltb_ge; lia).
    replace (v_size (m_free_vector_control_blocks this) <? 0) with false
      by (symmetry; apply Nat.ltb_ge; lia).
    simpl. rewrite insert_id; [done|].
    rewrite Hp. f_equal. destruct this; simpl in *. by subst.
  - destruct (m_allocate this (world s)) as [[r|] w'] eqn:Hal.
    + rewrite (allocate_miss _ _ _ _ _ Hp Hf Hal). by exists r.
    + by rewrite (allocate_throw _ _ _ _ Hp Hf Hal).
Qed.

(** ** Copy construction and assignment *)

Lemma copy_loop_result al (k : nat) (v : vector value_ptr) s :
  v_size v + k <= v_capacity v ->
  match copy_loop al k v s with
  | Ret v' s' =>
      exists rs,
        length rs = k /\
        v' = Vector (v_items v ++ rs) (v_capacity v) /\
        pools s' = pools s /\ next_block s' = next_block s /\ next_pool s' = next_pool s /\
        trace s' = rev (map (fun r => EvAllocateFn (Some r)) rs) ++ trace s
  | Throw s' => pools s' = pools s /\ next_block s' = next_block s
  | Fault _ => False
  end.
Proof.
  revert v s. induction k as [|k IH]; intros v s Hroom; simpl.
  - exists []. rewrite app_nil_r. by destruct v.
  - unfold bind, call_allocate.
    destruct (al (world s)) as [[r|] w]; [|done].
    assert (v_size v < v_capacity v) as Hlt by lia.
    rewrite (v_push_back_room _ _ Hlt).
    match goal with
    | |- match copy_loop _ _ ?v1 ?s1 with _ => _ end =>
        specialize (IH v1 s1); destruct (copy_loop al k v1 s1) as [v' s'| |]
    end; simpl in IH.
    + destruct IH as (rs & Hlen & -> & Hpools & Hnb & Hnp & Htr).
      { unfold v_size in *. simpl. rewrite length_app. simpl. lia. }
      exists (r :: rs). simpl. rewrite <- !app_assoc. simpl.
      split; [by rewrite Hlen|]. by rewrite Htr.
    + apply IH. unfold v_size in *. simpl. rewrite length_app. simpl. lia.
    + apply IH. unfold v_size in *. simpl. rewrite length_app. simpl. lia.
Qed.

Lemma copy_result (p : nat) s other :
  pools s !! p = Some other ->
  pools s !! next_pool s = None ->
  v_wf (m_free_vector other) ->
  (Z.of_nat (v_size (m_free_vector other)) < 2 ^ 32)%Z ->
  match resource_pool_copy (ResourcePool p) s with
  | Ret copy s' =>
      exists rs,
        m_pool copy = next_pool s /\
        m_pool copy <> p /\
        length rs = v_size (m_free_vector other) /\
        pools s' =
          <[next_pool s :=
              Impl (m_allocate other) (m_recycle other)
                   (Vector rs (v_capacity (m_free_vector other)))
                   (Vector [] (v_capacity (m_free_vector_control_blocks other)))]>
            (pools s) /\
        pools s' !! p = Some other /\
        trace s' = rev (map (fun r => EvAllocateFn (Some r)) rs) ++ trace s /\
        next_block s' = next_block s
  | Throw s' => pools s' = pools s /\ next_block s' = next_block s
  | Fault _ => False
  end.
Proof.
  intros Hp Hnew Hwf Hsmall.
  assert (next_pool s <> p) as Hne by (intros E; by rewrite E, Hp in Hnew).
  unfold resource_pool_copy, bind, get_impl. simpl. rewrite Hp.
  unfold impl_copy, bind, to_uint32.
  rewrite Z.mod_small by lia. rewrite Nat2Z.id, !v_reserve_new.
  pose proof (copy_loop_result (m_allocate other) (v_size (m_free_vector other))
                (Vector [] (v_capacity (m_free_vector other))) s) as Hloop.
  destruct (copy_loop _ _ _ s) as [fv' s1| |]; simpl in *.
  - destruct Hloop as (rs & Hlen & -> & Hpools & Hnb & Hnp & Htr).
    { unfold v_wf, v_size in *. simpl. lia. }
    exists rs. rewrite Hnp, Hpools. do 3 (split; [done|]). split; [done|].
    split; [by rewrite lookup_insert_ne|]. done.
  - apply Hloop. unfold v_wf, v_size in *. simpl. lia.
  - apply Hloop. unfold v_wf, v_size in *. simpl. lia.
Qed.

(** X6: copying a live pool that holds [n < 2^32] idle resources.  When
    the allocation function does not throw, it is called exactly [n] times
    and nothing else happens (no malloc); the copy is a new pool whose free
    vector holds exactly the [n] resources returned by those calls, in that
    order, with the capacities and functions of the original and an empty
    cache of control blocks; the original is untouched.  When the allocation
    function throws, the exception leaves the copy constructor and no pool
    was added or changed. *)
Theorem copy_builds_independent_pool (p : nat) s other :
  pools s !! p = Some other ->
  pools s !! next_pool s = None ->
  v_wf (m_free_vector other) ->
  (Z.of_nat (v_size (m_free_vector other)) < 2 ^ 32)%Z ->
  match resource_pool_copy (ResourcePool p) s with
  | Ret copy s' =>
      exists rs,
        m_pool copy = next_pool s /\
        m_pool copy <> p /\
        length rs = v_size (m_free_vector other) /\
        pools s' =
          <[next_pool s :=
              Impl (m_allocate other) (m_recycle other)
                   (Vector rs (v_capacity (m_free_vector other)))
                   (Vector [] (v_capacity (m_free_vector_control_blocks other)))]>
            (pools s) /\
        pools s' !! p = Some other /\
        trace s' = rev (map (fun r => EvAllocateFn (Some r)) rs) ++ trace s /\
        next_block s' = next_block s
  | Throw s' => pools s' = pools s /\ next_block s' = next_block s
  | Fault _ => False
  end.
Proof. apply copy_result. Qed.

(** X7: copy assignment [a = b] of live pools, [b] holding fewer than
    [2^32] idle resources.  The copy is made first: if the allocation
    function throws, the exception leaves the assignment and both pools are
    as before.  Otherwise [a] is a new pool with as many idle resources as
    [b], all new; [b] is untouched (unless it is [a] itself); the [impl]
    that [a] held is destroyed, its cached blocks freed and its idle
    resources destroyed.  The handles that [a] had issued are then orphans:
    the release of their last owner dereferences the destroyed [impl]. *)
Theorem copy_assign_replaces_pool (this other : resource_pool) s old src :
  pools s !! m_pool this = Some old ->
  pools s !! m_pool other = Some src ->
  pools s !! next_pool s = None ->
  v_wf (m_free_vector src) ->
  (Z.of_nat (v_size (m_free_vector src)) < 2 ^ 32)%Z ->
  match resource_pool_copy_assign this other s with
  | Ret new s' =>
      exists rs,
        m_pool new = next_pool s /\
        length rs = v_size (m_free_vector src) /\
        pools s' !! m_pool new =
          Some (Impl (m_allocate src) (m_recycle src)
                     (Vector rs (v_capacity (m_free_vector src)))
                     (Vector [] (v_capacity (m_free_vector_control_blocks src)))) /\
        resource_pool_unused_resources new s' = Ret (v_size (m_free_vector src)) s' /\
        pools s' !! m_pool this = None /\
        (m_pool other <> m_pool this -> pools s' !! m_pool other = Some src) /\
        trace s' =
          rev (map EvFree (v_items (m_free_vector_control_blocks old)))
            ++ EvCleared (m_pool this)
            :: rev (map (fun r => EvDestroy (vp_addr r)) (v_items (m_free_vector old)))
            ++ rev (map (fun r => EvAllocateFn (Some r)) rs) ++ trace s /\
        (forall h,
           handle_of (m_pool this) h -> h_use_count h <= 1 ->
           handle_release h s' = Fault (UseAfterFree (m_pool this)))
  | Throw s' => pools s' = pools s
  | Fault _ => False
  end.
Proof.
  intros Hthis Hother Hnew Hwf Hsmall.
  assert (m_pool this <> next_pool s) as Hne by (intros E; by rewrite E, Hnew in Hthis).
  assert (m_pool other <> next_pool s) as Hne' by (intros E; by rewrite E, Hnew in Hother).
  pose proof (copy_result (m_pool other) s src Hother Hnew Hwf Hsmall)
    as Hcopy.
  unfold resource_pool_copy_assign, bind.
  destruct other as [q]. simpl in *.
  destruct (resource_pool_copy (ResourcePool q) s) as [copy s1| |]; [|by destruct Hcopy|done].
  destruct Hcopy as (rs & Hid & _ & Hlen & Hpools & Hq & Htr & _).
  destruct copy as [cid]. simpl in Hid. subst cid.
  unfold resource_pool_destroy.
  erewrite destroy_live by (rewrite Hpools, lookup_insert_ne by done; exact Hthis).
  simpl. exists rs. rewrite Hpools, Htr.
  split; [done|]. split; [done|].
  match type of Hpools with _ = <[_ := ?t]> _ => set (that := t) in * end.
  assert (delete (m_pool this) (<[next_pool s := that]> (pools s)) !! next_pool s = Some that)
    as Hcopy_alive by (rewrite lookup_delete_ne by done; apply lookup_insert_eq).
  split; [exact Hcopy_alive|]. split.
  { unfold resource_pool_unused_resources. simpl.
    erewrite unused_resources_live by (simpl; exact Hcopy_alive).
    unfold v_size. simpl. by rewrite Hlen. }
  split; [apply lookup_delete_eq|]. split.
  { intros Hqt. by rewrite lookup_delete_ne, lookup_insert_ne. }
  split; [done|].
  intros h Hh Hcount. eapply release_dead; [done| |done]. simpl. apply lookup_delete_eq.
Qed.

(** X8: move assignment [a = std::move(b)] of two live pools: no
    allocation function is called; the [impl] that [a] held is destroyed,
    its cached blocks freed and its idle resources destroyed; [a] is now the
    pool that [b] was, with its idle resources as they were.  The handles
    that [a] had issued are orphans.  Moving a pool into itself changes
    nothing. *)
Theorem move_assign_transfers_pool (this other : resource_pool) s old src :
  pools s !! m_pool this = Some old ->
  pools s !! m_pool other = Some src ->
  m_pool this <> m_pool other ->
  resource_pool_move_assign this this s = Ret this s /\
  exists s',
    resource_pool_move_assign this other s = Ret other s' /\
    pools s' = delete (m_pool this) (pools s) /\
    pools s' !! m_pool other = Some src /\
    resource_pool_unused_resources other s' = Ret (v_size (m_free_vector src)) s' /\
    world s' = world s /\
    trace s' =
      rev (map EvFree (v_items (m_free_vector_control_blocks old)))
        ++ EvCleared (m_pool this)
        :: rev (map (fun r => EvDestroy (vp_addr r)) (v_items (m_free_vector old)))
        ++ trace s /\
    count_events is_allocate_call (trace s') = count_events is_allocate_call (trace s) /\
    (forall h,
       handle_of (m_pool this) h -> h_use_count h <= 1 ->
       handle_release h s' = Fault (UseAfterFree (m_pool this))).
Proof.
  intros Hthis Hother Hne. unfold resource_pool_move_assign.
  rewrite Nat.eqb_refl. split; [done|].
  apply Nat.eqb_neq in Hne as Hne'. rewrite Hne'.
  unfold bind, resource_pool_destroy. rewrite (destroy_live _ _ _ Hthis). simpl.
  eexists. split; [reflexivity|]. simpl. split; [done|].
  assert (delete (m_pool this) (pools s) !! m_pool other = Some src) as Halive
    by (by rewrite lookup_delete_ne).
  split; [exact Halive|]. split.
  { unfold resource_pool_unused_resources.
    by erewrite unused_resources_live by (simpl; exact Halive). }
  split; [done|]. split; [done|]. split.
  { by destruct (readers_teardown (m_pool this) old (trace s)) as (_ & _ & _ & _ & -> & _). }
  intros h Hh Hcount. eapply release_dead; [done| |done]. simpl. apply lookup_delete_eq.
Qed.

(** ** Isolation of pools *)

Lemma step_local pool (o : op) s hs s' hs' :
  is_Some (pools s !! m_pool pool) ->
  Forall (handle_of (m_pool pool)) hs ->
  step pool o (s, hs) = Some (s', hs') ->
  is_Some (pools s' !! m_pool pool) /\
  Forall (handle_of (m_pool pool)) hs' /\
  forall q, q <> m_pool pool -> pools s' !! q = pools s !! q.
Proof.
  intros [this Hp] Hhs. destruct o as [|i|i|]; simpl.
  - unfold resource_pool_allocate.
    allocate_paths Hp; intros [= <- <-]; simpl.
    + split; [by exists this|]. split; [|done].
      apply Forall_app. split; [done|]. by repeat constructor.
    + split; [by exists this|]. done.
    + split; [rewrite lookup_insert_eq; by eexists|]. split.
      * apply Forall_app. split; [done|]. by repeat constructor.
      * intros q Hq. by rewrite lookup_insert_ne.
    + split; [rewrite lookup_insert_eq; by eexists|]. split.
      * apply Forall_app. split; [done|]. by repeat constructor.
      * intros q Hq. by rewrite lookup_insert_ne.
  - destruct (hs !! i) as [h|] eqn:Hi; intros [= <- <-].
    + split; [by exists this|]. split; [|done].
      apply Forall_insert; [done|]. exact (Forall_lookup_1 _ _ _ _ Hhs Hi).
    + split; [by exists this|]. done.
  - destruct (hs !! i) as [h|] eqn:Hi; [|intros [= <- <-]; split; [by exists this|done]].
    pose proof (Forall_lookup_1 _ _ _ _ Hhs Hi) as Hh.
    rewrite (release_live _ _ _ _ Hh Hp).
    destruct (h_use_count h <=? 1); intros [= <- <-]; simpl.
    + split; [rewrite lookup_insert_eq; by eexists|]. split; [by apply Forall_delete|].
      intros q Hq. by rewrite lookup_insert_ne.
    + split; [by exists this|]. split; [|done]. by apply Forall_insert.
  - unfold resource_pool_free_unused. rewrite (free_unused_live _ _ _ Hp).
    intros [= <- <-]. simpl. split; [rewrite lookup_insert_eq; by eexists|].
    split; [done|]. intros q Hq. by rewrite lookup_insert_ne.
Qed.

(** X9: pools share no state.  Whatever is done with a live pool and the
    handles it issued (allocate(), copies and drops of handles,
    free_unused()), every other [impl] in the store, the original of a copy
    or a copy of the pool included, is left exactly as it was. *)
Theorem pools_are_isolated pool (ops : list op) s hs s' hs' (q : nat) :
  is_Some (pools s !! m_pool pool) ->
  Forall (handle_of (m_pool pool)) hs ->
  run_ops pool ops (s, hs) = Some (s', hs') ->
  q <> m_pool pool ->
  pools s' !! q = pools s !! q.
Proof.
  revert s hs. induction ops as [|o ops IH]; intros s hs Hp Hhs.
  - by intros [= <- <-].
  - cbn [run_ops].
    destruct (step pool o (s, hs)) as [[s1 hs1]|] eqn:Hstep; [|by intros [=]].
    destruct (step_local _ _ _ _ _ _ Hp Hhs Hstep) as (Hp1 & Hhs1 & Hframe).
    intros Hrun Hq. rewrite (IH _ _ Hp1 Hhs1 Hrun Hq). by apply Hframe.
Qed.

End Properties.

(** * The properties on concrete pools *)

(** C1 (the code does not keep it): a handle is obtained from a pool built
    with capacity 2, the pool is destroyed, then the last owner of the handle
    goes.  The deleter does what the specification says, it destroys the
    resource without a recycling attempt; but the release as a whole
    dereferences the destroyed pool, when the control block goes back to the
    [SimpleAllocator] stored in it. *)
Theorem release_after_pool_destruction_touches_pool :
  exists pool h s s',
    outliving_handle (init (0, 0)) = Ret (pool, h) s /\
    pools s !! m_pool pool = None /\
    h_use_count h = 1 /\
    sp_dispose h s = Ret tt s' /\
    trace s' = EvDestroy (h_get h) :: trace s /\
    sp_destroy h s' = Fault (UseAfterFree (m_pool pool)) /\
    handle_release h s = Fault (UseAfterFree (m_pool pool)).
Proof.
  eexists _, _, _, _. split; [vm_compute; reflexivity|].
  repeat split; vm_compute; reflexivity.
Qed.

(** C3, as stated, fails: with a cached control block at hand, a handle for
    a new resource still takes its block from malloc and leaves the cache
    alone. *)
Lemma cached_block_ignored_for_new_resource :
  exists pool s this h s',
    late_block_release (init (0, 0)) = Ret pool s /\
    pools s !! m_pool pool = Some this /\
    v_items (m_free_vector this) = [] /\
    v_items (m_free_vector_control_blocks this) = [0] /\
    resource_pool_allocate pool s = Ret h s' /\
    h_block h = 2 /\
    trace s' = EvMalloc 2 :: EvAllocateFn (Some (ValuePtr 2 2)) :: trace s /\
    pools s' = pools s.
Proof.
  eexists _, _, _, _, _. split; [vm_compute; reflexivity|].
  split; [vm_compute; reflexivity|].
  repeat split; vm_compute; reflexivity.
Qed.

(** C6, as stated, fails: the last owner of a handle that outlives its pool
    goes, the deleter runs and the recycle function is not called. *)
Lemma recycle_function_skipped_without_pool :
  exists pool h s s',
    outliving_handle (init (0, 0)) = Ret (pool, h) s /\
    m_recycle (impl_new counter_allocate (Some counter_recycle) 2) = Some counter_recycle /\
    h_use_count h = 1 /\
    sp_dispose h s = Ret tt s' /\
    count_events is_recycle_call (trace s') = 0 /\
    (world s').2 = 0.
Proof.
  eexists _, _, _, _. split; [vm_compute; reflexivity|].
  repeat split; vm_compute; reflexivity.
Qed.

(** ** The theorems at concrete inputs *)

Lemma unused_resources_bounded_witness :
  resource_pool_new counter_allocate None 2 (init (0, 0))
    = Ret example_pool (example_start counter_allocate None 2) /\
  exists s hs this n,
    run_ops example_pool three_then_drop (example_start counter_allocate None 2, [])
      = Some (s, hs) /\
    pools s !! m_pool example_pool = Some this /\
    resource_pool_unused_resources example_pool s = Ret n s /\
    n <= 2 /\
    v_size (m_free_vector_control_blocks this) <= 2.
Proof.
  split; [reflexivity|].
  apply (unused_resources_bounded counter_allocate None 2 (0, 0) three_then_drop).
  reflexivity.
Defined.

Lemma free_vector_is_lifo_witness :
  exists s hs,
    run_ops example_pool three_then_drop (example_start counter_allocate None 2, [])
      = Some (s, hs) /\
    resource_pool_unused_resources example_pool s = Ret 2 s /\
    exists r h s',
      most_recently_recycled 0 [] (trace s) = Some r /\
      resource_pool_allocate example_pool s = Ret h s' /\
      deleter_m_resource (h_deleter h) = r /\
      h_get h = vp_addr r /\
      count_events is_allocate_call (trace s') = count_events is_allocate_call (trace s).
Proof.
  eexists _, _. split; [vm_compute; reflexivity|]. split; [vm_compute; reflexivity|].
  eapply (free_vector_is_lifo counter_allocate None 2 (0, 0) three_then_drop example_pool).
  - reflexivity.
  - vm_compute; reflexivity.
  - vm_compute; reflexivity.
  - lia.
Defined.

Lemma roundtrip_reuse_witness :
  exists s hs h s1,
    run_ops example_pool three_then_drop
            (example_start counter_allocate (Some counter_recycle) 2, []) = Some (s, hs) /\
    resource_pool_allocate example_pool s = Ret h s1 /\
    exists s2 h2 s3,
      handle_release h s1 = Ret None s2 /\
      resource_pool_allocate example_pool s2 = Ret h2 s3 /\
      h_get h2 = h_get h /\
      deleter_m_resource (h_deleter h2) =
        (recycled (Some counter_recycle) (deleter_m_resource (h_deleter h)) (world s1)).1 /\
      world s3 = world s2 /\
      count_events is_allocate_call (trace s3) = count_events is_allocate_call (trace s2).
Proof.
  eexists _, _, _, _. split; [vm_compute; reflexivity|]. split; [vm_compute; reflexivity|].
  eapply (roundtrip_reuse counter_allocate (Some counter_recycle) 2 (0, 0) three_then_drop
                          example_pool).
  - lia.
  - reflexivity.
  - vm_compute; reflexivity.
  - vm_compute; reflexivity.
Defined.

Lemma drop_all_gives_min_witness :
  exists s hs new s1,
    run_ops example_pool [OpAllocate; OpDrop 0; OpFreeUnused]
            (example_start counter_allocate None 2, []) = Some (s, hs) /\
    allocate_n example_pool 3 s = Ret new s1 /\
    new ≡ₚ rev new /\
    exists s2,
      release_all (rev new) s1 = Ret tt s2 /\
      resource_pool_unused_resources example_pool s2 = Ret (min 3 2) s2.
Proof.
  eexists _, _, _, _. split; [vm_compute; reflexivity|]. split; [vm_compute; reflexivity|].
  split; [apply Permutation_rev|].
  eapply (drop_all_gives_min counter_allocate None 2 (0, 0) [OpAllocate; OpDrop 0; OpFreeUnused]
                             example_pool).
  - reflexivity.
  - vm_compute; reflexivity.
  - right. exists [OpAllocate; OpDrop 0]. reflexivity.
  - vm_compute; reflexivity.
  - apply Permutation_rev.
Defined.

Lemma recycle_function_called_on_last_drop_witness :
  (forall r w, (counter_recycle r w).2.2 = S w.2) /\
  (forall w, (counter_allocate w).2.2 = w.2) /\
  exists s hs,
    run_ops example_pool three_then_drop
            (example_start counter_allocate (Some counter_recycle) 1, []) = Some (s, hs) /\
    count_events is_recycle_call (trace s) = 3 /\
    (world s).2 = 3.
Proof.
  split; [intros r w; reflexivity|]. split; [intros w; reflexivity|].
  eexists _, _. split; [vm_compute; reflexivity|].
  edestruct (recycle_function_called_on_last_drop
               counter_allocate counter_recycle (fun w => w.2) 1 (0, 0) three_then_drop
               example_pool) as (Hcalls & Hcounter & _).
  - intros r w; reflexivity.
  - intros w; reflexivity.
  - reflexivity.
  - vm_compute; reflexivity.
  - split; [exact Hcalls | exact Hcounter].
Defined.

Lemma free_unused_empties_witness :
  exists s hs this,
    run_ops example_pool three_then_drop (example_start counter_allocate None 2, [])
      = Some (s, hs) /\
    pools s !! m_pool example_pool = Some this /\
    v_size (m_free_vector this) = 2 /\
    exists s',
      resource_pool_free_unused example_pool s = Ret tt s' /\
      resource_pool_unused_resources example_pool s' = Ret 0 s'.
Proof.
  eexists _, _, _. split; [vm_compute; reflexivity|]. split; [vm_compute; reflexivity|].
  split; [reflexivity|].
  match goal with
  | |- exists s', resource_pool_free_unused _ ?s = _ /\ _ =>
      edestruct (free_unused_empties example_pool s)
        as (s' & this' & Hfree & _ & _ & _ & Hzero & _)
  end.
  - vm_compute; reflexivity.
  - exists s'. split; [exact Hfree | exact Hzero].
Defined.

Lemma allocate_failure_is_propagated_witness :
  pools (example_start flaky_allocate None 2) !! m_pool example_pool
    = Some (impl_new flaky_allocate None 2) /\
  v_items (m_free_vector (impl_new flaky_allocate None 2)) = [] /\
  flaky_allocate (0, 0) = (None, (1, 0)) /\
  exists s1,
    resource_pool_allocate example_pool (example_start flaky_allocate None 2) = Throw s1 /\
    pools s1 = pools (example_start flaky_allocate None 2) /\
    exists h s2, resource_pool_allocate example_pool s1 = Ret h s2 /\ h_get h = 2.
Proof.
  split; [vm_compute; reflexivity|]. split; [reflexivity|]. split; [reflexivity|].
  edestruct (allocate_failure_is_propagated
               example_pool (example_start flaky_allocate None 2)
               (impl_new flaky_allocate None 2) (1, 0))
    as (s1 & Hthrow & Hpools & _ & _ & _ & Hnext).
  - vm_compute; reflexivity.
  - reflexivity.
  - reflexivity.
  - exists s1. split; [exact Hthrow|]. split; [exact Hpools|].
    destruct (Hnext (ValuePtr 2 2) (2, 0) eq_refl) as (h & s2 & Ha & _ & Hget & _).
    exists h, s2. split; [exact Ha | exact Hget].
Defined.

Lemma control_block_source_and_sink_witness :
  exists s hs this,
    run_ops example_pool three_then_drop (example_start counter_allocate None 2, [])
      = Some (s, hs) /\
    pools s !! 0 = Some this /\
    v_items (m_free_vector this) = [ValuePtr 2 2; ValuePtr 3 3] /\
    v_items (m_free_vector_control_blocks this) = [1; 2] /\
    exists h s', impl_allocate 0 s = Ret h s' /\ h_block h = 2 /\ next_block s' = next_block s.
Proof.
  eexists _, _, _. split; [vm_compute; reflexivity|]. split; [vm_compute; reflexivity|].
  split; [reflexivity|]. split; [reflexivity|].
  match goal with
  | |- exists h s', impl_allocate _ ?s = _ /\ _ =>
      edestruct (control_block_source_and_sink 0 s) as (Hhit & _ & _)
  end.
  - vm_compute; reflexivity.
  - destruct (Hhit [ValuePtr 2 2] (ValuePtr 3 3) eq_refl)
      as (h & s' & this' & Ha & _ & Hb & _ & _ & Hnb).
    exists h, s'. split; [exact Ha|]. split; [exact Hb | exact Hnb].
Defined.

(** ** The copy constructor counts in [uint32_t] *)

Lemma to_uint32_range : to_uint32 uint32_range = 0%Z.
Proof.
  unfold to_uint32, uint32_range.
  rewrite Z2Nat.id by (apply Z.pow_nonneg; lia).
  apply Z.mod_same. by apply Z.pow_nonzero.
Qed.

(** C8 (the code does not keep it): a pool of capacity [2^32] issues [2^32]
    handles which are then all dropped, so that [2^32] resources are idle.
    The copy constructor reads that number into a [uint32_t], which makes it
    zero: the copy holds no idle resource and the allocation function is not
    called once. *)
#[local] Opaque uint32_range.

Theorem copy_loses_idle_resources_beyond_uint32 :
  exists pool s0 new s1 s,
    resource_pool_new counter_allocate None uint32_range (init (0, 0)) = Ret pool s0 /\
    allocate_n pool uint32_range s0 = Ret new s1 /\
    release_all new s1 = Ret tt s /\
    resource_pool_unused_resources pool s = Ret uint32_range s /\
    exists copy s',
      resource_pool_copy pool s = Ret copy s' /\
      resource_pool_unused_resources copy s' = Ret 0 s' /\
      count_events is_allocate_call (trace s') = count_events is_allocate_call (trace s).
Proof.
  pose proof (pool_new_ok counter_allocate None uint32_range (0, 0)) as Hok.
  set (s0 := State (<[0 := impl_new counter_allocate None uint32_range]> ∅)
                   (0, 0) [] 0 1) in *.
  assert (pools s0 !! 0 = Some (impl_new counter_allocate None uint32_range)) as Hp
    by apply lookup_insert_eq.
  assert (v_items (m_free_vector (impl_new counter_allocate None uint32_range)) = [])
    as Hf by apply v_reserve_items.
  assert (forall w, exists r w',
             m_allocate (impl_new counter_allocate None uint32_range) w = (Some r, w'))
    as Htotal by (intros w; eexists _, _; reflexivity).
  destruct (allocate_n_total 0 uint32_range s0 _ Htotal Hp Hf) as (new & s1 & Halloc).
  destruct (allocate_n_miss _ _ _ _ _ _ Hp Hf Halloc) as (Hpools & Hlen & Hall).
  assert (pool_ok counter_allocate None uint32_range 0 s1) as Hok1.
  { destruct Hok as (this & Hthis & Hrest). exists this.
    split; [rewrite Hpools; exact Hthis | exact Hrest]. }
  assert (impl_unused_resources 0 s1 = Ret 0 s1) as Hzero.
  { erewrite unused_resources_live by (rewrite Hpools; exact Hp).
    unfold v_size. rewrite Hf. reflexivity. }
  destruct (release_all_size _ _ _ _ _ _ _ Hok1 Hzero Hall) as (s & Hrel & Hun).
  rewrite Hlen, Nat.add_0_l, Nat.min_id in Hun.
  exists example_pool, s0, new, s1, s.
  split; [reflexivity|]. split; [exact Halloc|]. split; [exact Hrel|]. split; [exact Hun|].
  unfold impl_unused_resources, bind, get_impl, ret in Hun.
  destruct (pools s !! 0) as [this|] eqn:Hthis; [|discriminate].
  apply Ret_value in Hun. rename Hun into Hsize.
  assert (to_uint32 (v_size (m_free_vector this)) = 0%Z) as Htrunc
    by (rewrite Hsize; apply to_uint32_range).
  unfold example_pool. rewrite (copy_truncated 0 s this Hthis Htrunc).
  eexists _, _. split; [reflexivity|]. split; [|reflexivity].
  unfold resource_pool_unused_resources.
  erewrite unused_resources_live by apply lookup_insert_eq.
  rewrite v_reserve_new. reflexivity.
Qed.

(** ** Accounting, copies and assignments at concrete inputs *)

Lemma control_blocks_accounted_witness :
  exists s hs this,
    run_ops example_pool three_then_drop (example_start counter_allocate None 2, [])
      = Some (s, hs) /\
    pools s !! m_pool example_pool = Some this /\
    malloced (trace s) ≡ₚ
      freed (trace s) ++ v_items (m_free_vector_control_blocks this) ++ (h_block <$> hs) /\
    NoDup (freed (trace s) ++ v_items (m_free_vector_control_blocks this) ++ (h_block <$> hs)).
Proof.
  eexists _, _. 
  edestruct (control_blocks_accounted counter_allocate None 2 (0, 0) three_then_drop
               example_pool) as (this & Hp & Hperm & Hnd).
  - reflexivity.
  - vm_compute; reflexivity.
  - exists this. split; [vm_compute; reflexivity|]. split; [exact Hp|].
    split; [exact Hperm | exact Hnd].
Defined.

Lemma resources_accounted_witness :
  exists s hs this,
    run_ops example_pool three_then_drop (example_start counter_allocate None 2, [])
      = Some (s, hs) /\
    pools s !! m_pool example_pool = Some this /\
    allocated (trace s) ≡ₚ
      (vp_addr <$> v_items (m_free_vector this)) ++ (h_get <$> hs) ++ destroyed (trace s).
Proof.
  eexists _, _.
  edestruct (resources_accounted counter_allocate None 2 (0, 0) three_then_drop
               example_pool) as (this & Hp & Hperm & _).
  - reflexivity.
  - vm_compute; reflexivity.
  - exists this. split; [vm_compute; reflexivity|]. split; [exact Hp | exact Hperm].
Defined.

Lemma teardown_releases_everything_witness :
  exists s hs s',
    run_ops example_pool three_then_drop (example_start counter_allocate None 2, [])
      = Some (s, hs) /\
    hs = [] /\
    resource_pool_destroy example_pool s = Ret tt s' /\
    malloced (trace s') ≡ₚ freed (trace s') /\
    allocated (trace s') ≡ₚ destroyed (trace s').
Proof.
  eexists _, _.
  edestruct (teardown_releases_everything counter_allocate None 2 (0, 0) three_then_drop
               example_pool) as (s' & Hd & _ & _ & _ & _ & _ & Hall).
  - reflexivity.
  - vm_compute; reflexivity.
  - exists s'. split; [vm_compute; reflexivity|]. split; [reflexivity|].
    split; [exact Hd|]. exact (Hall eq_refl).
Defined.


Lemma zero_capacity_recycles_nothing_witness :
  exists s hs,
    run_ops example_pool [OpAllocate; OpAllocate; OpDrop 0]
            (example_start counter_allocate (Some counter_recycle) 0, []) = Some (s, hs) /\
    resource_pool_unused_resources example_pool s = Ret 0 s /\
    destroyed (trace s) = [1].
Proof.
  eexists _, _. split; [vm_compute; reflexivity|].
  edestruct (zero_capacity_recycles_nothing counter_allocate (Some counter_recycle) (0, 0)
               [OpAllocate; OpAllocate; OpDrop 0] example_pool) as (Hzero & _).
  - reflexivity.
  - vm_compute; reflexivity.
  - split; [exact Hzero | reflexivity].
Defined.

Lemma copy_builds_independent_pool_witness :
  exists s hs this,
    run_ops example_pool three_then_drop (example_start counter_allocate None 2, [])
      = Some (s, hs) /\
    pools s !! 0 = Some this /\
    pools s !! next_pool s = None /\
    v_wf (m_free_vector this) /\
    (Z.of_nat (v_size (m_free_vector this)) < 2 ^ 32)%Z /\
    match resource_pool_copy (ResourcePool 0) s with
    | Ret copy s' => m_pool copy = 1 /\ pools s' !! 0 = Some this
    | _ => False
    end.
Proof.
  eexists _, _, _. split; [vm_compute; reflexivity|]. split; [vm_compute; reflexivity|].
  split; [vm_compute; reflexivity|]. split; [vm_compute; lia|].
  split; [vm_compute; reflexivity|].
  match goal with
  | |- match resource_pool_copy _ ?s with _ => _ end =>
      pose proof (copy_builds_independent_pool 0 s) as Hcopy;
      destruct (resource_pool_copy (ResourcePool 0) s) as [copy s'| |] eqn:E
  end.
  - edestruct Hcopy as (rs & Hid & _ & _ & _ & Hp & _).
    + vm_compute; reflexivity.
    + vm_compute; reflexivity.
    + vm_compute; lia.
    + vm_compute; reflexivity.
    + split; [exact Hid | exact Hp].
  - vm_compute in E. discriminate E.
  - vm_compute in E. discriminate E.
Defined.

Lemma copy_assign_replaces_pool_witness :
  exists a b h s old src,
    two_pools (init (0, 0)) = Ret (a, b, h) s /\
    pools s !! m_pool a = Some old /\
    pools s !! m_pool b = Some src /\
    pools s !! next_pool s = None /\
    v_wf (m_free_vector src) /\
    (Z.of_nat (v_size (m_free_vector src)) < 2 ^ 32)%Z /\
    match resource_pool_copy_assign a b s with
    | Ret new s' =>
        resource_pool_unused_resources new s' = Ret 1 s' /\
        handle_release h s' = Fault (UseAfterFree (m_pool a))
    | _ => False
    end.
Proof.
  eexists _, _, _, _, _, _. split; [vm_compute; reflexivity|].
  split; [vm_compute; reflexivity|]. split; [vm_compute; reflexivity|].
  split; [vm_compute; reflexivity|]. split; [vm_compute; lia|].
  split; [vm_compute; reflexivity|].
  match goal with
  | |- match resource_pool_copy_assign ?a ?b ?s with _ => _ end =>
      pose proof (copy_assign_replaces_pool a b s) as Hassign;
      destruct (resource_pool_copy_assign a b s) as [new s'| |] eqn:E
  end.
  - edestruct Hassign as (rs & _ & _ & _ & Hun & _ & _ & _ & Horphan).
    + vm_compute; reflexivity.
    + vm_compute; reflexivity.
    + vm_compute; reflexivity.
    + vm_compute; lia.
    + vm_compute; reflexivity.
    + split; [exact Hun|]. apply Horphan; [split; reflexivity | vm_compute; lia].
  - vm_compute in E. discriminate E.
  - vm_compute in E. discriminate E.
Defined.

Lemma move_assign_transfers_pool_witness :
  exists a b h s old src,
    two_pools (init (0, 0)) = Ret (a, b, h) s /\
    pools s !! m_pool a = Some old /\
    pools s !! m_pool b = Some src /\
    m_pool a <> m_pool b /\
    exists s',
      resource_pool_move_assign a b s = Ret b s' /\
      resource_pool_unused_resources b s' = Ret 1 s' /\
      handle_release h s' = Fault (UseAfterFree (m_pool a)).
Proof.
  eexists _, _, _, _, _, _. split; [vm_compute; reflexivity|].
  split; [vm_compute; reflexivity|]. split; [vm_compute; reflexivity|].
  split; [vm_compute; lia|].
  match goal with
  | |- exists s', resource_pool_move_assign ?a ?b ?s = _ /\ _ =>
      edestruct (move_assign_transfers_pool a b s)
        as (_ & s' & Hmove & _ & _ & Hun & _ & _ & _ & Horphan)
  end.
  - vm_compute; reflexivity.
  - vm_compute; reflexivity.
  - vm_compute; lia.
  - exists s'. split; [exact Hmove|]. split; [exact Hun|].
    apply Horphan; [split; reflexivity | vm_compute; lia].
Defined.

Lemma pools_are_isolated_witness :
  exists a b h s s' hs' old,
    two_pools (init (0, 0)) = Ret (a, b, h) s /\
    is_Some (pools s !! m_pool b) /\
    run_ops b three_then_drop (s, []) = Some (s', hs') /\
    m_pool a <> m_pool b /\
    pools s !! m_pool a = Some old /\
    pools s' !! m_pool a = Some old.
Proof.
  eexists _, _, _, _, _, _, _. split; [vm_compute; reflexivity|].
  match goal with
  | |- _ /\ run_ops ?b ?ops (?s, []) = _ /\ _ =>
      pose proof (pools_are_isolated b ops s []) as Hiso
  end.
  split; [vm_compute; by eexists|]. split; [vm_compute; reflexivity|].
  split; [vm_compute; lia|]. split; [vm_compute; reflexivity|].
  erewrite Hiso.
  - vm_compute; reflexivity.
  - vm_compute; by eexists.
  - constructor.
  - vm_compute; reflexivity.
  - vm_compute; lia.
Defined.
